(** * fngraph: annotated call-graph extraction from Python syntax trees

    A shallow embedding of [fngraph.py]: the [FunctionCounter] visitor
    ([visit_*], [_register_calls], [pretty_calls]), the projection
    [to_networkx], [color_vector] and [merge_networkx], together with the
    parts of [ast.NodeVisitor] and of networkx's [MultiDiGraph] that these
    functions call. *)

From stdpp Require Import base option list strings gmap.

Set Default Proof Using "Type".
Set Warnings "-register-all,-clear-no-such-hyp".
Open Scope string_scope.
Open Scope nat_scope.
Open Scope list_scope.

(** ** Exceptions *)

(** Python exceptions that the modelled code can raise. *)
Inductive exn :=
| AttributeError (attr : string)
| KeyError (key : bool * bool)
| TypeError.

Inductive result (A : Type) :=
| Ok (a : A)
| Raise (e : exn).
Arguments Ok {A} a.
Arguments Raise {A} e.

Global Instance result_ret : MRet result := fun A a => Ok a.
Global Instance result_bind : MBind result := fun A B f m =>
  match m with
  | Ok a => f a
  | Raise e => Raise e
  end.

Definition raises {A} (m : result A) : Prop := ∃ e, m = Raise e.

(** ** Syntax trees *)

(** [ast.alias]: one entry of an import statement. *)
Record alias := Alias { alias_name : string; asname : option string }.

(** The node classes that [fngraph.py] tells apart, with their scalar
    attributes.  Every other class of the [ast] module (Module, Expr,
    Assign, BinOp, Lambda, AsyncFunctionDef, arguments, ...) is [Other]. *)
Inductive kind :=
| FunctionDef (name : string)
| ClassDef (name : string)
| If
| IfExp
| For
| While
| GeneratorExp
| ListComp
| DictComp
| SetComp
| comprehension
| Name (id : string)
| Attribute (attr : string)
| Import (names : list alias)
| ImportFrom (module : option string) (names : list alias)
| Other.

(** A node holds its class and its child nodes in field order, which is the
    order of [ast.iter_child_nodes].  A call expression is kept apart since
    the code reads its [func] field: its children are [func] followed by the
    arguments and keywords.  The expression context of a [Name] or
    [Attribute] (a childless [Load] object) is left out. *)
Inductive node :=
| Node (k : kind) (children : list node)
| Call (func : node) (args : list node).

Definition iter_child_nodes (n : node) : list node :=
  match n with
  | Node _ children => children
  | Call func args => func :: args
  end.

(** Python compares and hashes syntax nodes by identity.  The identity of a
    node of a tree is its position: the child indices leading to it from the
    root. *)
Definition path := list nat.

Record ref := Ref { ref_path : path; ref_node : node }.

Fixpoint subtree (n : node) (p : path) : option node :=
  match p with
  | [] => Some n
  | i :: p' =>
      match iter_child_nodes n !! i with
      | Some c => subtree c p'
      | None => None
      end
  end.

(** Attribute reads; a class without the attribute raises. *)
Definition attr_name (n : node) : result string :=
  match n with
  | Node (FunctionDef name) _ | Node (ClassDef name) _ => Ok name
  | _ => Raise (AttributeError "name")
  end.

Definition attr_id (n : node) : result string :=
  match n with
  | Node (Name id) _ => Ok id
  | _ => Raise (AttributeError "id")
  end.

Definition attr_names (n : node) : result (list alias) :=
  match n with
  | Node (Import names) _ | Node (ImportFrom _ names) _ => Ok names
  | _ => Raise (AttributeError "names")
  end.

Definition attr_module (n : node) : result (option string) :=
  match n with
  | Node (ImportFrom module _) _ => Ok module
  | _ => Raise (AttributeError "module")
  end.

(** [isinstance] tests of [_register_calls]. *)
Definition isinstance_conditional (n : node) : bool :=
  match n with
  | Node If _ | Node IfExp _ => true
  | _ => false
  end.

Definition isinstance_loop (n : node) : bool :=
  match n with
  | Node For _ | Node While _ => true
  | _ => false
  end.

(** ** The visitor's state *)

(** The dataclass [Call] of the source; named [CallRec] here since [Call]
    is the syntax node. *)
Record CallRec := mkCall { obj : ref; is_conditional : bool; is_loop : bool }.

Record FunctionCounter := mkFunctionCounter {
  filename : option string;
  index : gmap string ref;
  graph : list (ref * list CallRec);
  imports : gmap (option string) (list string);
  aliases : gmap string string
}.

Definition __init__ (filename : option string) : FunctionCounter :=
  mkFunctionCounter filename ∅ [] ∅ ∅.

(** [self.index[name] = node] *)
Definition set_index (name : string) (r : ref) (self : FunctionCounter) :=
  mkFunctionCounter (filename self) (<[name := r]> (index self)) (graph self)
    (imports self) (aliases self).

(** [self.graph[owner].append(e)] on the insertion-ordered [defaultdict]
    keyed by node identity: append to the owner's list, or add the owner at
    the end with a one-element list. *)
Fixpoint graph_append (owner : ref) (e : CallRec) (g : list (ref * list CallRec))
  : list (ref * list CallRec) :=
  match g with
  | [] => [(owner, [e])]
  | (o, cs) :: g' =>
      if decide (ref_path o = ref_path owner)
      then (o, cs ++ [e]) :: g'
      else (o, cs) :: graph_append owner e g'
  end.

Definition add_call (owner : ref) (e : CallRec) (self : FunctionCounter) :=
  mkFunctionCounter (filename self) (index self) (graph_append owner e (graph self))
    (imports self) (aliases self).

(** [self.graph.get(owner, [])] *)
Fixpoint calls_of (g : list (ref * list CallRec)) (owner : path) : list CallRec :=
  match g with
  | [] => []
  | (o, cs) :: g' => if decide (ref_path o = owner) then cs else calls_of g' owner
  end.

(** ** [_register_calls] *)

Fixpoint _register_calls (here : path) (nd : node) (parent_node : ref)
    (is_conditional is_loop : bool) (self : FunctionCounter) {struct nd}
  : FunctionCounter :=
  match nd with
  | Call func _ =>
      match func with
      | Node (Name _) _ =>
          add_call parent_node (mkCall (Ref (here ++ [0]) func) is_conditional is_loop) self
      | Node (Attribute _) _ => self
      | _ => self
      end
  | Node _ children =>
      (fix each_child (i : nat) (cs : list node) (self : FunctionCounter) :=
         match cs with
         | [] => self
         | child :: rest =>
             let self :=
               match child with
               | Node (FunctionDef name) _ => set_index name (Ref (here ++ [i]) child) self
               | _ => self
               end in
             let self :=
               if isinstance_conditional child then
                 _register_calls (here ++ [i]) child parent_node true is_loop self
               else if isinstance_loop child then
                 _register_calls (here ++ [i]) child parent_node is_conditional true self
               else
                 _register_calls (here ++ [i]) child parent_node is_conditional is_loop self in
             each_child (S i) rest self
         end) 0 children self
  end.

(** ** The visitor methods *)

Definition visit_FunctionDef (self : FunctionCounter) (nd : ref) : result FunctionCounter :=
  name ← attr_name (ref_node nd);
  mret (_register_calls (ref_path nd) (ref_node nd) nd false false (set_index name nd self)).

Definition visit_ClassDef (self : FunctionCounter) (nd : ref) : result FunctionCounter :=
  name ← attr_name (ref_node nd);
  mret (_register_calls (ref_path nd) (ref_node nd) nd false false (set_index name nd self)).

(** [visit_For], [visit_While], [visit_GeneratorExp], [visit_ListComp],
    [visit_DictComp], [visit_SetComp] and [visit_comprehension] have one
    body. *)
Definition visit_loop (self : FunctionCounter) (nd : ref) : result FunctionCounter :=
  mret (_register_calls (ref_path nd) (ref_node nd) nd false true self).

Definition visit_For := visit_loop.
Definition visit_While := visit_loop.
Definition visit_GeneratorExp := visit_loop.
Definition visit_ListComp := visit_loop.
Definition visit_DictComp := visit_loop.
Definition visit_SetComp := visit_loop.
Definition visit_comprehension := visit_loop.

(** Truth value of [i.asname]: [None] and the empty string are false. *)
Definition truthy (s : option string) : option string :=
  match s with
  | Some "" => None
  | _ => s
  end.

Definition set_alias (name : string) (a : option string) (self : FunctionCounter) :=
  match truthy a with
  | Some a' =>
      mkFunctionCounter (filename self) (index self) (graph self) (imports self)
        (<[name := a']> (aliases self))
  | None => self
  end.

(** [self.imports[key]] on the [defaultdict]: a missing key is created with
    the empty list; [extra] is what is appended to the entry. *)
Definition touch_import (key : option string) (extra : list string) (self : FunctionCounter) :=
  mkFunctionCounter (filename self) (index self) (graph self)
    (<[key := default [] (imports self !! key) ++ extra]> (imports self))
    (aliases self).

(** The loops of [visit_Import] and [visit_ImportFrom], before their calls
    to [generic_visit]. *)
Definition visit_Import_names (self : FunctionCounter) (nd : ref) : result FunctionCounter :=
  names ← attr_names (ref_node nd);
  mret (foldl (λ self i,
          touch_import (Some (alias_name i)) [] (set_alias (alias_name i) (asname i) self))
        self names).

Definition visit_ImportFrom_names (self : FunctionCounter) (nd : ref) : result FunctionCounter :=
  names ← attr_names (ref_node nd);
  foldl (λ acc i,
          self ← acc;
          module ← attr_module (ref_node nd);
          mret (touch_import module [alias_name i] (set_alias (alias_name i) (asname i) self)))
        (mret self) names.

(** [NodeVisitor.visit]: dispatch on the class of the node to [visit_<class>],
    and to [generic_visit], which visits the children in order, for a class
    without such a method. *)
Fixpoint visit (here : path) (nd : node) (self : FunctionCounter) {struct nd}
  : result FunctionCounter :=
  match nd with
  | Node k children =>
      let generic_visit :=
        fix each_child (i : nat) (cs : list node) (self : FunctionCounter) :=
          match cs with
          | [] => mret self
          | child :: rest => self ← visit (here ++ [i]) child self; each_child (S i) rest self
          end in
      match k with
      | FunctionDef _ => visit_FunctionDef self (Ref here nd)
      | ClassDef _ => visit_ClassDef self (Ref here nd)
      | For => visit_For self (Ref here nd)
      | While => visit_While self (Ref here nd)
      | GeneratorExp => visit_GeneratorExp self (Ref here nd)
      | ListComp => visit_ListComp self (Ref here nd)
      | DictComp => visit_DictComp self (Ref here nd)
      | SetComp => visit_SetComp self (Ref here nd)
      | comprehension => visit_comprehension self (Ref here nd)
      | Import _ => self ← visit_Import_names self (Ref here nd); generic_visit 0 children self
      | ImportFrom _ _ =>
          self ← visit_ImportFrom_names self (Ref here nd); generic_visit 0 children self
      | _ => generic_visit 0 children self
      end
  | Call func args =>
      self ← visit (here ++ [0]) func self;
      (fix each_child (i : nat) (cs : list node) (self : FunctionCounter) :=
         match cs with
         | [] => mret self
         | child :: rest => self ← visit (here ++ [i]) child self; each_child (S i) rest self
         end) 1 args self
  end.

(** [read_file]: [tree] is what [ast.parse] returned for the file's text;
    the attribute [self.ast] that keeps it is not read anywhere and is left
    out. *)
Definition read_file (tree : node) (self : FunctionCounter) : result FunctionCounter :=
  visit [] tree self.

Definition extract (tree : node) : result FunctionCounter :=
  read_file tree (__init__ None).

(** ** Insertion-ordered dictionaries *)

(** A Python [dict] whose iteration order matters: pairs in insertion order.
    Assigning to a present key keeps its place. *)
Section dict.
Context {K V : Type} `{EqDecision K}.

Fixpoint dict_get (k : K) (d : list (K * V)) : option V :=
  match d with
  | [] => None
  | (k', v) :: d' => if decide (k' = k) then Some v else dict_get k d'
  end.

Fixpoint dict_set (k : K) (v : V) (d : list (K * V)) : list (K * V) :=
  match d with
  | [] => [(k, v)]
  | (k', v') :: d' =>
      if decide (k' = k) then (k', v) :: d' else (k', v') :: dict_set k v d'
  end.

Definition dict_setdefault (k : K) (v : V) (d : list (K * V)) : list (K * V) :=
  match dict_get k d with
  | Some _ => d
  | None => d ++ [(k, v)]
  end.
End dict.

(** ** networkx's [MultiDiGraph] *)

(** The attribute dictionary of an edge; every edge of this program carries
    both attributes. *)
Record attrs := mkAttrs { in_conditional : bool; in_loop : bool }.

(** [_adj] is networkx's [_succ]: node -> neighbour -> edge key -> attributes,
    each level in insertion order.  The node dictionary [_node] receives its
    keys together with [_adj] and holds no attributes here, and [_pred] mirrors
    [_adj]; neither is read by the functions below. *)
Record MultiDiGraph := mkGraph {
  _adj : list (string * list (string * list (nat * attrs)))
}.

Definition empty_graph : MultiDiGraph := mkGraph [].

Definition nodes (G : MultiDiGraph) : list string := (_adj G).*1.

(** [G.edges(keys=True, data=True)]: for every node in order, for every
    neighbour in order, for every key in order. *)
Definition keydict_edges (u v : string) (keydict : list (nat * attrs))
  : list (string * string * nat * attrs) :=
  (λ kd, (u, v, kd.1, kd.2)) <$> keydict.

Definition nbrs_edges (u : string) (nbrs : list (string * list (nat * attrs)))
  : list (string * string * nat * attrs) :=
  nbrs ≫= λ vk, keydict_edges u vk.1 vk.2.

Definition edges (G : MultiDiGraph) : list (string * string * nat * attrs) :=
  _adj G ≫= λ un, nbrs_edges un.1 un.2.

(** [G[u][v][key]], if the edge is there. *)
Definition edge_get (G : MultiDiGraph) (u v : string) (key : nat) : option attrs :=
  nbrs ← dict_get u (_adj G); keydict ← dict_get v nbrs; dict_get key keydict.

(** [G.edges(data=True)] *)
Definition edges_data (G : MultiDiGraph) : list (string * string * attrs) :=
  (λ '(u, v, _, d), (u, v, d)) <$> edges G.

Definition add_node (n : string) (G : MultiDiGraph) : MultiDiGraph :=
  mkGraph (dict_setdefault n [] (_adj G)).

(** The loop [while key in keydict: key += 1] of [new_edge_key]; it ends
    within [len(keydict) + 1] tests, which is the fuel given below. *)
Fixpoint first_free_key (fuel key : nat) (keydict : list (nat * attrs)) : nat :=
  match fuel with
  | 0 => key
  | S fuel' =>
      match dict_get key keydict with
      | Some _ => first_free_key fuel' (S key) keydict
      | None => key
      end
  end.

Definition new_edge_key (u v : string) (G : MultiDiGraph) : nat :=
  match dict_get u (_adj G) ≫= dict_get v with
  | None => 0
  | Some keydict => first_free_key (S (length keydict)) (length keydict) keydict
  end.

(** [G.add_edge(u, v, key, **attr)]: both end points become nodes; without a
    key a new one is chosen; an edge that exists under the key has its
    attributes updated, otherwise the edge is added. *)
Definition add_edge (u v : string) (key : option nat) (attr : attrs) (G : MultiDiGraph)
  : MultiDiGraph :=
  let G := add_node v (add_node u G) in
  let key := match key with Some k => k | None => new_edge_key u v G end in
  let nbrs := default [] (dict_get u (_adj G)) in
  let keydict :=
    match dict_get v nbrs with
    | Some keydict => dict_set key attr keydict
    | None => [(key, attr)]
    end in
  mkGraph (dict_set u (dict_set v keydict nbrs) (_adj G)).

(** [nx.compose(G, H)]: a new graph receiving the nodes of [G] and of [H],
    then the edges of [G] and of [H] with their keys. *)
Definition add_nodes_from (ns : list string) (R : MultiDiGraph) : MultiDiGraph :=
  foldl (λ R n, add_node n R) R ns.

Definition add_edges_from (es : list (string * string * nat * attrs)) (R : MultiDiGraph)
  : MultiDiGraph :=
  foldl (λ R '(u, v, k, d), add_edge u v (Some k) d R) R es.

Definition compose (G H : MultiDiGraph) : MultiDiGraph :=
  add_edges_from (edges H)
    (add_edges_from (edges G)
       (add_nodes_from (nodes H) (add_nodes_from (nodes G) empty_graph))).

(** ** Projection, colours and merging *)

Fixpoint foldM {A B} (f : B → A → result B) (b : B) (l : list A) : result B :=
  match l with
  | [] => mret b
  | x :: l' => b' ← f b x; foldM f b' l'
  end.

Section projection.
(** [set(dir(__builtins__))], supplied by the interpreter. *)
Variable _builtins : gset string.

(** The body of the inner loop of [to_networkx]. *)
Definition to_networkx_edge (filter_builtins : bool) (v1 : ref)
    (G : MultiDiGraph) (e : CallRec) : result MultiDiGraph :=
  keep ← (if filter_builtins
          then id ← attr_id (ref_node (obj e)); mret (bool_decide (id ∉ _builtins))
          else mret true);
  if (keep : bool) then
    u ← attr_name (ref_node v1);
    v ← attr_id (ref_node (obj e));
    mret (add_edge u v None (mkAttrs (is_conditional e) (is_loop e)) G)
  else mret G.

Definition to_networkx (fnc : FunctionCounter) (filter_builtins : bool)
  : result MultiDiGraph :=
  foldM (λ G '(v1, v2), foldM (to_networkx_edge filter_builtins v1) G v2)
    empty_graph (graph fnc).

(** [reduce(nx.compose, gfs)] over the lazily projected graphs; [reduce] of
    an empty sequence raises [TypeError]. *)
Definition merge_networkx (fncs : list FunctionCounter) (filter_builtins : bool)
  : result MultiDiGraph :=
  match fncs with
  | [] => Raise TypeError
  | f :: rest =>
      G ← to_networkx f filter_builtins;
      foldM (λ G f', H ← to_networkx f' filter_builtins; mret (compose G H)) G rest
  end.
End projection.

Definition colors : gmap (bool * bool) string :=
  list_to_map [((true, true), "brown"); ((true, false), "cyan");
               ((false, true), "red"); ((false, false), "black")].

Definition color_vector (G : MultiDiGraph) (colormap : gmap (bool * bool) string)
  : result (list string) :=
  foldM (λ cl '(u, v, data),
           let key := (in_conditional data, in_loop data) in
           match colormap !! key with
           | Some c => mret (cl ++ [c])
           | None => Raise (KeyError key)
           end)
        [] (edges_data G).

(** The property [pretty_calls]. *)
Definition pretty_calls (self : FunctionCounter) : result (list (string * list string)) :=
  foldM (λ rv '(f, v),
           name ← attr_name (ref_node f);
           foldM (λ rv v1,
                    name ← attr_name (ref_node f);
                    id ← attr_id (ref_node (obj v1));
                    mret (dict_set name (default [] (dict_get name rv) ++ [id]) rv))
                 (dict_set name [] rv) v)
        [] (graph self).

(** * Definitions used to state and prove the properties *)

(** ** Positions *)

(** [strip_prefix p o] is [Some q] when [o = p ++ q]. *)
Fixpoint strip_prefix (p o : path) : option path :=
  match p, o with
  | [], _ => Some o
  | i :: p', j :: o' => if decide (i = j) then strip_prefix p' o' else None
  | _ :: _, [] => None
  end.

(** ** What a registration pass and a visit record *)

(** The flags [_register_calls] passes on when it descends into [child]. *)
Definition child_conditional (c : bool) (child : node) : bool :=
  c || isinstance_conditional child.

Definition child_loop (l : bool) (child : node) : bool :=
  l || isinstance_loop child.

(** The calls appended by [_register_calls], in order. *)
Fixpoint collect (here : path) (nd : node) (c l : bool) {struct nd} : list CallRec :=
  match nd with
  | Call func _ =>
      match func with
      | Node (Name _) _ => [mkCall (Ref (here ++ [0]) func) c l]
      | _ => []
      end
  | Node _ children =>
      (fix each_child (i : nat) (cs : list node) :=
         match cs with
         | [] => []
         | child :: rest =>
             collect (here ++ [i]) child (child_conditional c child) (child_loop l child)
               ++ each_child (S i) rest
         end) 0 children
  end.

Fixpoint collect_children (here : path) (i : nat) (cs : list node) (c l : bool)
  : list CallRec :=
  match cs with
  | [] => []
  | child :: rest =>
      collect (here ++ [i]) child (child_conditional c child) (child_loop l child)
        ++ collect_children here (S i) rest c l
  end.

Fixpoint register_children (here : path) (i : nat) (cs : list node) (parent_node : ref)
    (c l : bool) (self : FunctionCounter) : FunctionCounter :=
  match cs with
  | [] => self
  | child :: rest =>
      let self :=
        match child with
        | Node (FunctionDef name) _ => set_index name (Ref (here ++ [i]) child) self
        | _ => self
        end in
      let self :=
        if isinstance_conditional child then
          _register_calls (here ++ [i]) child parent_node true l self
        else if isinstance_loop child then
          _register_calls (here ++ [i]) child parent_node c true self
        else
          _register_calls (here ++ [i]) child parent_node c l self in
      register_children here (S i) rest parent_node c l self
  end.

Definition append_all (owner : ref) (es : list CallRec) (g : list (ref * list CallRec)) :=
  foldl (λ g e, graph_append owner e g) g es.

(** The classes with a [visit_] method that registers calls, with the loop
    flag the pass starts with.  None of these methods calls
    [generic_visit]: the visitor does not descend below such a node. *)
Definition root_loop (k : kind) : option bool :=
  match k with
  | FunctionDef _ | ClassDef _ => Some false
  | For | While | GeneratorExp | ListComp | DictComp | SetComp | comprehension => Some true
  | _ => None
  end.

(** [root_at n q = Some (m, l)]: the visitor, started at [n], reaches the
    node [m] at relative position [q] through nodes it visits generically,
    and starts a registration pass at [m] with loop flag [l]. *)
Fixpoint root_at (n : node) (q : path) : option (node * bool) :=
  match q with
  | [] =>
      match n with
      | Node k _ => l ← root_loop k; Some (n, l)
      | Call _ _ => None
      end
  | i :: q' =>
      match n with
      | Node k children =>
          match root_loop k with
          | Some _ => None
          | None => children !! i ≫= λ c, root_at c q'
          end
      | Call func args => (func :: args) !! i ≫= λ c, root_at c q'
      end
  end.

Definition visit_calls (n : node) (q o : path) : list CallRec :=
  match root_at n q with
  | Some (m, l) => collect o m false l
  | None => []
  end.

(** The calls that visiting [n], which sits at [here], records for owner [o]. *)
Definition owned (here : path) (n : node) (o : path) : list CallRec :=
  match strip_prefix here o with
  | Some q => visit_calls n q o
  | None => []
  end.

Fixpoint children_owned (here : path) (i : nat) (cs : list node) (o : path)
  : list CallRec :=
  match cs with
  | [] => []
  | c :: rest => owned (here ++ [i]) c o ++ children_owned here (S i) rest o
  end.

Fixpoint visit_children (here : path) (i : nat) (cs : list node) (self : FunctionCounter)
  : result FunctionCounter :=
  match cs with
  | [] => mret self
  | child :: rest => self ← visit (here ++ [i]) child self; visit_children here (S i) rest self
  end.

Definition is_call (n : node) : bool :=
  match n with Call _ _ => true | Node _ _ => false end.

Definition is_name (n : node) : bool :=
  match n with Node (Name _) _ => true | _ => false end.

(** [passes test n p]: on the way from [n] down to position [p], some node
    below [n] ([p] itself included) satisfies [test]. *)
Fixpoint passes (test : node → bool) (n : node) (p : path) : bool :=
  match p with
  | [] => false
  | i :: p' =>
      match iter_child_nodes n !! i with
      | Some c => test c || passes test c p'
      | None => false
      end
  end.

(** [under_call n p]: on the way from [n] down to position [p], some node
    above [p] ([n] itself included) is a call expression. *)
Fixpoint under_call (n : node) (p : path) : bool :=
  match p with
  | [] => false
  | i :: p' =>
      is_call n
      || match iter_child_nodes n !! i with
         | Some c => under_call c p'
         | None => false
         end
  end.

(** The call a pass started at [n] with flags [c], [l] records for the
    expression at position [p]: its callee and flags. *)
Fixpoint site (n : node) (p : path) (c l : bool) {struct p} : option (node * bool * bool) :=
  match n, p with
  | Call func _, [] => if is_name func then Some (func, c, l) else None
  | Call _ _, _ :: _ => None
  | Node _ _, [] => None
  | Node _ children, i :: p' =>
      child ← children !! i;
      site child p' (child_conditional c child) (child_loop l child)
  end.

Definition site_calls (here : path) (n : node) (p : path) (c l : bool) : list CallRec :=
  match site n p c l with
  | Some (f, c', l') => [mkCall (Ref (here ++ p ++ [0]) f) c' l']
  | None => []
  end.

(** The dictionaries of a graph have no repeated keys. *)
Definition wf_nbrs (nbrs : list (string * list (nat * attrs))) : Prop :=
  NoDup nbrs.*1 ∧ Forall (λ vk, NoDup vk.2.*1) nbrs.

Definition wf_graph (G : MultiDiGraph) : Prop :=
  NoDup (_adj G).*1 ∧ Forall (λ un, wf_nbrs un.2) (_adj G).

(** [add_edge] once both end points are nodes. *)
Definition put_edge (u v : string) (k : nat) (attr : attrs) (G : MultiDiGraph)
  : MultiDiGraph :=
  let nbrs := default [] (dict_get u (_adj G)) in
  let keydict :=
    match dict_get v nbrs with
    | Some keydict => dict_set k attr keydict
    | None => [(k, attr)]
    end in
  mkGraph (dict_set u (dict_set v keydict nbrs) (_adj G)).

(** Every end point of an edge is a node. *)
Definition closed_graph (G : MultiDiGraph) : Prop :=
  ∀ u v k, is_Some (edge_get G u v k) → u ∈ nodes G ∧ v ∈ nodes G.

(** The invariant of every graph built by [add_node] and [add_edge]. *)
Definition good_graph (G : MultiDiGraph) : Prop := wf_graph G ∧ closed_graph G.

(** ** Projection *)




(** The edge a recorded call stands for: from the owner's name to the
    callee's name, with the two flags; none for a built-in callee when
    filtering. *)
Definition call_edge (builtins : gset string) (filter_builtins : bool)
    (v1 : ref) (e : CallRec) : list (string * string * attrs) :=
  match attr_name (ref_node v1), attr_id (ref_node (obj e)) with
  | Ok u, Ok v =>
      if filter_builtins && bool_decide (v ∈ builtins) then []
      else [(u, v, mkAttrs (is_conditional e) (is_loop e))]
  | _, _ => []
  end.

Definition call_edges (builtins : gset string) (filter_builtins : bool)
    (g : list (ref * list CallRec)) : list (string * string * attrs) :=
  g ≫= λ oc, oc.2 ≫= call_edge builtins filter_builtins oc.1.



(** ** Sample syntax trees *)

Definition arguments : node := Node Other [].

Definition Expr (value : node) : node := Node Other [value].

Definition Module_ (body : list node) : node := Node Other body.

Definition plain_call (id : string) (args : list node) : node :=
  Call (Node (Name id) []) args.

(** [def outer():]
    [    def inner(): call_a()]
    [    call_b()] *)
Definition outer_def : node :=
  Node (FunctionDef "outer")
    [arguments;
     Node (FunctionDef "inner") [arguments; Expr (plain_call "call_a" [])];
     Expr (plain_call "call_b" [])].

Definition nested_defs : node := Module_ [outer_def].


(** [g()(h())] *)
Definition call_on_call : node := Call (plain_call "g" []) [plain_call "h" []].

(** [def f():]
    [    if cond:]
    [        for x in xs: g()]
    [    h()] *)
Definition conditional_loop : node :=
  Module_ [Node (FunctionDef "f")
             [arguments;
              Node If [Node (Name "cond") [];
                       Node For [Node (Name "x") []; Node (Name "xs") [];
                                 Expr (plain_call "g" [])]];
              Expr (plain_call "h" [])]].

(** [def f():]
    [    class C: pass] *)
Definition nested_class : node :=
  Module_ [Node (FunctionDef "f") [arguments; Node (ClassDef "C") [Node Other []]]].

(** [for x in xs: callee()] or [while x: callee()] at module level. *)
Definition toplevel_loop (while : bool) (callee : string) : node :=
  Module_ [if while
           then Node While [Node (Name "x") []; Expr (plain_call callee [])]
           else Node For [Node (Name "x") []; Node (Name "xs") [];
                          Expr (plain_call callee [])]].

(** The index extracted from [def f(): g()]. *)
Definition one_call_index : FunctionCounter :=
  match extract (Module_ [Node (FunctionDef "f") [arguments; Expr (plain_call "g" [])]]) with
  | Ok fc => fc
  | Raise _ => __init__ None
  end.

(** ** The statements of the specification that the code does not meet *)

Definition is_attribute (n : node) : bool :=
  match n with Node (Attribute _) _ => true | _ => false end.

(** The specification on a call whose callee is neither a name nor an
    attribute access: it emits no edge, but a plain-name call among its
    arguments is still recorded for the same owner. *)
Definition recurses_below_call (nd : node) : Prop :=
  ∀ func args i id args' here owner c l self,
    nd = Call func args → is_name func = false → is_attribute func = false →
    args !! i = Some (plain_call id args') →
    ∃ e, e ∈ calls_of (graph (_register_calls here nd owner c l self)) (ref_path owner)
         ∧ ref_path (obj e) = here ++ [S i; 0].

(** The specification on nested definitions: a plain-name call in the body
    of a function [inner] nested in a function [outer] is recorded for
    [outer], and once more in the entry of [inner]. *)
Definition double_attribution (tree : node) : Prop :=
  ∀ fc outer inner p oname och iname ich f args,
    extract tree = Ok fc →
    subtree tree outer = Some (Node (FunctionDef oname) och) →
    inner ≠ [] →
    subtree tree (outer ++ inner) = Some (Node (FunctionDef iname) ich) →
    subtree tree (outer ++ inner ++ p) = Some (Call f args) →
    is_name f = true →
    (∃ e, e ∈ calls_of (graph fc) outer
          ∧ ref_path (obj e) = outer ++ inner ++ p ++ [0])
    ∧ (∃ e, e ∈ calls_of (graph fc) (outer ++ inner)
            ∧ ref_path (obj e) = outer ++ inner ++ p ++ [0]).



(** ** Colours and merging *)

(** The colormap key of an edge. *)
Definition color_key (e : string * string * attrs) : bool * bool :=
  (in_conditional e.2, in_loop e.2).

(** The body of the loop of [color_vector]. *)
Definition color_step (colormap : gmap (bool * bool) string)
    (cl : list string) (e : string * string * attrs) : result (list string) :=
  let '(u, v, data) := e in
  let key := (in_conditional data, in_loop data) in
  match colormap !! key with
  | Some c => mret (cl ++ [c])
  | None => Raise (KeyError key)
  end.

(** The attributes the merged graph holds under (source, target, key): those
    of the last input graph that has such an edge. *)
Definition later_wins (acc : option attrs) (d : option attrs) : option attrs :=
  match d with Some _ => d | None => acc end.

(** The attributes under (source, target, key) after merging [Gs] in order. *)
Definition last_edge (Gs : list MultiDiGraph) (u v : string) (k : nat) : option attrs :=
  foldl (λ acc G, later_wins acc (edge_get G u v k)) None Gs.

(** [Gs] are the projections of [fncs]. *)
Definition projections (builtins : gset string) (filter_builtins : bool)
    (fncs : list FunctionCounter) (Gs : list MultiDiGraph) : Prop :=
  Forall2 (λ fnc G, to_networkx builtins fnc filter_builtins = Ok G) fncs Gs.

(** The specification on merging: the edges of the merged graph are the
    edges of the inputs put together, none dropped. *)
Definition merge_concatenates (builtins : gset string) (filter_builtins : bool)
    (fncs : list FunctionCounter) : Prop :=
  ∀ Gs R,
    projections builtins filter_builtins fncs Gs →
    merge_networkx builtins fncs filter_builtins = Ok R →
    edges_data R ≡ₚ mjoin (edges_data <$> Gs).

(** The projection of [one_call_index]. *)
Definition one_call_graph : MultiDiGraph :=
  match to_networkx ∅ one_call_index true with
  | Ok G => G
  | Raise _ => empty_graph
  end.

(** * Verification *)

(** ** Induction on syntax trees *)

Lemma node_forall_ind (P : node → Prop) :
  (∀ k children, Forall P children → P (Node k children)) →
  (∀ func args, P func → Forall P args → P (Call func args)) →
  ∀ n, P n.
Proof.
  intros HNode HCall.
  fix IH 1. intros [k children | func args].
  - apply HNode. induction children as [|c cs IHcs]; constructor; [apply IH | exact IHcs].
  - apply HCall; [apply IH |].
    induction args as [|c cs IHcs]; constructor; [apply IH | exact IHcs].
Qed.

(** ** Paths *)

Lemma strip_prefix_app p q : strip_prefix p (p ++ q) = Some q.
Proof. induction p as [|i p IH]; simpl; [done|]. by rewrite decide_True. Qed.

Lemma strip_prefix_Some p o q : strip_prefix p o = Some q ↔ o = p ++ q.
Proof.
  split; [|intros ->; apply strip_prefix_app].
  revert o. induction p as [|i p IH]; intros [|j o]; simpl; try congruence.
  case_decide; [|done]. intros Hs. apply IH in Hs. congruence.
Qed.

Lemma strip_prefix_snoc p i o :
  strip_prefix (p ++ [i]) o =
  match strip_prefix p o with
  | Some (j :: q) => if decide (i = j) then Some q else None
  | _ => None
  end.
Proof.
  revert o. induction p as [|i' p IH]; intros [|j o]; simpl; try done.
  case_decide; [apply IH | done].
Qed.

(** ** What one registration pass records *)

Lemma collect_Node here k children c l :
  collect here (Node k children) c l = collect_children here 0 children c l.
Proof.
  simpl. generalize 0 as i.
  induction children as [|child rest IH]; intros i; simpl; [done|]. by rewrite IH.
Qed.

Lemma _register_calls_Node here k children parent_node c l self :
  _register_calls here (Node k children) parent_node c l self
  = register_children here 0 children parent_node c l self.
Proof.
  simpl. generalize 0 as i. revert self.
  induction children as [|child rest IH]; intros self i; simpl; [done|]. by rewrite IH.
Qed.

Lemma append_all_app owner es1 es2 g :
  append_all owner (es1 ++ es2) g = append_all owner es2 (append_all owner es1 g).
Proof. apply foldl_app. Qed.

Lemma graph_set_index name r self : graph (set_index name r self) = graph self.
Proof. reflexivity. Qed.

Lemma child_flags_cases c l child :
  (isinstance_conditional child = true ∧ isinstance_loop child = false
   ∧ child_conditional c child = true ∧ child_loop l child = l)
  ∨ (isinstance_conditional child = false ∧ isinstance_loop child = true
   ∧ child_conditional c child = c ∧ child_loop l child = true)
  ∨ (isinstance_conditional child = false ∧ isinstance_loop child = false
   ∧ child_conditional c child = c ∧ child_loop l child = l).
Proof.
  unfold child_conditional, child_loop.
  destruct child as [[] ?|], c, l; simpl; naive_solver.
Qed.

(** The graph after a pass is the graph before it with the collected calls
    appended to the owner's entry. *)
Lemma _register_calls_graph nd : ∀ here parent_node c l self,
  graph (_register_calls here nd parent_node c l self)
  = append_all parent_node (collect here nd c l) (graph self).
Proof.
  induction nd as [k children IH | func args _ _] using node_forall_ind;
    intros here parent_node c l self.
  - rewrite _register_calls_Node, collect_Node. generalize 0 as i.
    revert self. induction IH as [|child rest Hchild _ IHrest]; intros self i; simpl; [done|].
    rewrite IHrest, append_all_app. f_equal.
    destruct (child_flags_cases c l child) as [(H1 & H2 & H3 & H4)|[(H1 & H2 & H3 & H4)|(H1 & H2 & H3 & H4)]];
      rewrite H1, ?H2, H3, H4, Hchild; destruct child as [[] ?|]; reflexivity.
  - simpl. destruct func as [[] ?|]; reflexivity.
Qed.

Lemma calls_of_graph_append owner e g o :
  calls_of (graph_append owner e g) o
  = calls_of g o ++ (if decide (ref_path owner = o) then [e] else []).
Proof.
  induction g as [|[o' cs] g IH]; simpl.
  - case_decide; done.
  - destruct (decide (ref_path o' = ref_path owner)) as [Heq|Hne]; simpl.
    + rewrite Heq. case_decide; [done | by rewrite app_nil_r].
    + destruct (decide (ref_path o' = o)) as [Heq'|]; [|apply IH].
      rewrite decide_False by congruence. by rewrite app_nil_r.
Qed.

Lemma calls_of_append_all owner es g o :
  calls_of (append_all owner es g) o
  = calls_of g o ++ (if decide (ref_path owner = o) then es else []).
Proof.
  revert g. induction es as [|e es IH]; intros g.
  - simpl. case_decide; by rewrite app_nil_r.
  - change (append_all owner (e :: es) g)
      with (append_all owner es (graph_append owner e g)).
    rewrite IH, calls_of_graph_append.
    case_decide; by rewrite <-?app_assoc, ?app_nil_r.
Qed.

(** ** Which nodes the visitor starts a pass at *)

Lemma visit_Call here func args self :
  visit here (Call func args) self = visit_children here 0 (func :: args) self.
Proof.
  simpl. destruct (visit (here ++ [0]) func self) as [self1|]; simpl; [|done].
  generalize 1 as i. revert self1.
  induction args as [|child rest IH]; intros self1 i; simpl; [done|].
  destruct (visit (here ++ [i]) child self1); simpl; [apply IH | done].
Qed.

Lemma generic_visit_children here children : ∀ i self,
  (fix each_child (i : nat) (cs : list node) (self : FunctionCounter) :=
     match cs with
     | [] => mret self
     | child :: rest => self ← visit (here ++ [i]) child self; each_child (S i) rest self
     end) i children self = visit_children here i children self.
Proof.
  induction children as [|child rest IH]; intros i self; simpl; [done|].
  destruct (visit (here ++ [i]) child self); simpl; [apply IH | done].
Qed.

Lemma foldl_graph {A} (f : FunctionCounter → A → FunctionCounter) self l :
  (∀ s a, graph (f s a) = graph s) → graph (foldl f self l) = graph self.
Proof.
  intros Hf. revert self. induction l as [|a l IH]; intros self; simpl; [done|].
  by rewrite IH, Hf.
Qed.

Lemma graph_set_alias name a self : graph (set_alias name a self) = graph self.
Proof. unfold set_alias. by destruct (truthy a). Qed.

Lemma visit_Import_names_ok self here names children :
  ∃ self', visit_Import_names self (Ref here (Node (Import names) children)) = Ok self'
           ∧ graph self' = graph self.
Proof.
  eexists. split; [reflexivity|]. apply foldl_graph.
  intros s a. simpl. apply graph_set_alias.
Qed.

Lemma visit_ImportFrom_names_ok self here module names children :
  ∃ self', visit_ImportFrom_names self (Ref here (Node (ImportFrom module names) children))
           = Ok self'
           ∧ graph self' = graph self.
Proof.
  unfold visit_ImportFrom_names. simpl.
  revert self. induction names as [|a names IH] using rev_ind; intros self.
  - by eexists.
  - rewrite foldl_app. simpl. destruct (IH self) as (self1 & -> & Hg). simpl.
    eexists. split; [reflexivity|]. simpl. by rewrite graph_set_alias.
Qed.

(** Visiting a node of a class without a registering method comes down to
    visiting its children, possibly after recording imports. *)
Lemma visit_generic here k children self :
  root_loop k = None →
  ∃ self0, graph self0 = graph self
           ∧ visit here (Node k children) self = visit_children here 0 children self0.
Proof.
  intros Hk. destruct k; try discriminate Hk; simpl; rewrite ?generic_visit_children;
    try (by exists self).
  - destruct (visit_Import_names_ok self here names children) as (self0 & Hv & Hg).
    exists self0. split; [done|]. unfold visit_Import_names in Hv. simpl in Hv.
    by injection Hv as <-.
  - destruct (visit_ImportFrom_names_ok self here module names children) as (self0 & Hv & Hg).
    exists self0. split; [done|].
    rewrite Hv. simpl. apply generic_visit_children.
Qed.

Lemma visit_root here k children self l :
  root_loop k = Some l →
  ∃ self0, graph self0 = graph self
           ∧ visit here (Node k children) self
             = Ok (_register_calls here (Node k children) (Ref here (Node k children))
                     false l self0).
Proof.
  intros Hk. destruct k; try discriminate Hk; injection Hk as <-;
    try (by exists self); by eexists (set_index _ _ self).
Qed.

Lemma strip_prefix_nil_iff here o : strip_prefix here o = Some [] ↔ here = o.
Proof. rewrite strip_prefix_Some, app_nil_r. naive_solver. Qed.

Lemma owned_root here k children o l :
  root_loop k = Some l →
  owned here (Node k children) o
  = if decide (here = o) then collect here (Node k children) false l else [].
Proof.
  intros Hk. unfold owned, visit_calls.
  destruct (strip_prefix here o) as [[|j q]|] eqn:Hs.
  - apply strip_prefix_nil_iff in Hs as ->. rewrite decide_True by done.
    cbn [root_at]. by rewrite Hk.
  - cbn [root_at]. rewrite Hk. case_decide as Heq; [|done].
    apply strip_prefix_nil_iff in Heq. congruence.
  - case_decide as Heq; [|done]. apply strip_prefix_nil_iff in Heq. congruence.
Qed.

Lemma children_owned_lookup here cs o : ∀ i,
  children_owned here i cs o =
  match strip_prefix here o with
  | Some (j :: q) =>
      if decide (i ≤ j)%nat
      then match cs !! (j - i) with Some c => visit_calls c q o | None => [] end
      else []
  | _ => []
  end.
Proof.
  induction cs as [|c rest IH]; intros i; simpl.
  - destruct (strip_prefix here o) as [[|j q]|]; try done. by case_decide.
  - rewrite IH. unfold owned. rewrite strip_prefix_snoc.
    destruct (strip_prefix here o) as [[|j q]|]; try done.
    destruct (decide (i = j)) as [->|Hne].
    + destruct (decide (S j ≤ j)%nat); [lia|]. destruct (decide (j ≤ j)%nat); [|lia].
      rewrite Nat.sub_diag. simpl. by rewrite app_nil_r.
    + simpl. destruct (decide (S i ≤ j)%nat) as [Hle|Hgt].
      * destruct (decide (i ≤ j)%nat); [|lia].
        replace (j - i) with (S (j - S i)) by lia. done.
      * destruct (decide (i ≤ j)%nat); [lia|]. done.
Qed.

Lemma owned_children here n o :
  match n with Node k _ => root_loop k = None | Call _ _ => True end →
  owned here n o = children_owned here 0 (iter_child_nodes n) o.
Proof.
  intros Hn. rewrite children_owned_lookup. unfold owned.
  destruct (strip_prefix here o) as [[|j q]|]; try done.
  - unfold visit_calls. destruct n as [k ch|]; cbn [root_at]; [by rewrite Hn | done].
  - rewrite decide_True by lia. rewrite Nat.sub_0_r. unfold visit_calls at 1.
    destruct n as [k ch|f args]; cbn [root_at iter_child_nodes].
    + rewrite Hn. destruct (ch !! j); done.
    + destruct ((f :: args) !! j); done.
Qed.

Lemma visit_children_calls_of here cs :
  Forall (λ n, ∀ here self self', visit here n self = Ok self' →
               ∀ o, calls_of (graph self') o = calls_of (graph self) o ++ owned here n o) cs →
  ∀ i self self', visit_children here i cs self = Ok self' →
  ∀ o, calls_of (graph self') o = calls_of (graph self) o ++ children_owned here i cs o.
Proof.
  induction 1 as [|c rest Hc _ IH]; intros i self self' Hv o; simpl in *.
  - injection Hv as <-. by rewrite app_nil_r.
  - destruct (visit (here ++ [i]) c self) as [self1|] eqn:Hv1; simpl in Hv; [|done].
    rewrite (IH _ _ _ Hv), (Hc _ _ _ Hv1). by rewrite app_assoc.
Qed.

(** The calls an owner has after a visit: those it had, followed by the
    calls of the pass started at it, if the visit reaches it as a root. *)
Lemma visit_calls_of n : ∀ here self self',
  visit here n self = Ok self' →
  ∀ o, calls_of (graph self') o = calls_of (graph self) o ++ owned here n o.
Proof.
  induction n as [k children IH | func args IHf IHa] using node_forall_ind;
    intros here self self' Hv o.
  - destruct (root_loop k) as [l|] eqn:Hk.
    + destruct (visit_root here k children self l Hk) as (self0 & Hg & Heq).
      assert (self' = _register_calls here (Node k children)
                        (Ref here (Node k children)) false l self0) as ->
        by congruence.
      rewrite _register_calls_graph, calls_of_append_all, Hg, (owned_root _ _ _ _ l Hk).
      done.
    + destruct (visit_generic here k children self Hk) as (self0 & Hg & Heq).
      rewrite Heq in Hv. rewrite (owned_children here (Node k children)) by done.
      rewrite <-Hg. by apply visit_children_calls_of.
  - rewrite visit_Call in Hv. rewrite (owned_children here (Call func args)) by done.
    apply visit_children_calls_of; [|done]. by constructor.
Qed.

Lemma visit_children_total here cs :
  Forall (λ n, ∀ here self, ∃ self', visit here n self = Ok self') cs →
  ∀ i self, ∃ self', visit_children here i cs self = Ok self'.
Proof.
  induction 1 as [|c rest Hc _ IH]; intros i self; simpl; [by eexists|].
  destruct (Hc (here ++ [i]) self) as [self1 ->]. simpl. apply IH.
Qed.

Lemma visit_total n : ∀ here self, ∃ self', visit here n self = Ok self'.
Proof.
  induction n as [k children IH | func args IHf IHa] using node_forall_ind;
    intros here self.
  - destruct (root_loop k) as [l|] eqn:Hk.
    + destruct (visit_root here k children self l Hk) as (self0 & _ & ->). by eexists.
    + destruct (visit_generic here k children self Hk) as (self0 & _ & ->).
      by apply visit_children_total.
  - rewrite visit_Call. apply visit_children_total. by constructor.
Qed.

Lemma extract_total tree : ∃ fc, extract tree = Ok fc.
Proof. apply visit_total. Qed.

Lemma extract_calls_of tree fc o :
  extract tree = Ok fc → calls_of (graph fc) o = visit_calls tree o o.
Proof. intros Hx. by rewrite (visit_calls_of tree [] _ _ Hx o). Qed.

(** ** Call sites *)

Lemma site_spec p : ∀ n c l,
  site n p c l =
  match subtree n p with
  | Some (Call f _) =>
      if is_name f && negb (under_call n p)
      then Some (f, c || passes isinstance_conditional n p, l || passes isinstance_loop n p)
      else None
  | _ => None
  end.
Proof.
  induction p as [|i p IH]; intros [k ch|f args] c l; simpl; try done.
  - rewrite !orb_false_r, andb_true_r. done.
  - destruct (ch !! i) as [child|]; simpl; [|done].
    rewrite IH. destruct (subtree child p) as [[|f args]|]; try done.
    unfold child_conditional, child_loop. by rewrite !orb_assoc.
  - destruct ((f :: args) !! i) as [child|]; [|done].
    destruct (subtree child p) as [[|f' args']|]; try done.
    by rewrite andb_false_r.
Qed.

Lemma filter_none {A} (P : A → Prop) `{∀ x, Decision (P x)} (l : list A) :
  (∀ x, x ∈ l → ¬ P x) → filter P l = [].
Proof.
  induction l as [|x l IH]; intros Hl; [done|].
  rewrite filter_cons_False by (apply Hl; left).
  apply IH. intros y Hy. apply Hl. by right.
Qed.

(** The callee of a recorded call sits below the node the pass started at. *)
Lemma collect_path_shape n : ∀ here c l e,
  e ∈ collect here n c l → ∃ p, ref_path (obj e) = here ++ p ++ [0].
Proof.
  induction n as [k children IH | func args _ _] using node_forall_ind;
    intros here c l e He.
  - rewrite collect_Node in He. revert He. generalize 0 at 1 as i.
    induction IH as [|child rest Hchild _ IHrest]; intros i He; simpl in He.
    + by apply elem_of_nil in He.
    + apply elem_of_app in He as [He|He]; [|by eapply IHrest].
      apply Hchild in He as [p Hp]. exists (i :: p). rewrite Hp.
      by rewrite <-app_assoc.
  - simpl in He. destruct func as [[] ?|]; try by apply elem_of_nil in He.
    apply list_elem_of_singleton in He as ->. by exists [].
Qed.

Lemma collect_children_filter here cs c l j p :
  Forall (λ n, ∀ here c l p,
            filter (λ e, ref_path (obj e) = here ++ p ++ [0]) (collect here n c l)
            = site_calls here n p c l) cs →
  ∀ i,
  filter (λ e, ref_path (obj e) = here ++ (j :: p) ++ [0]) (collect_children here i cs c l)
  = if decide (i ≤ j)%nat
    then match cs !! (j - i) with
         | Some child =>
             site_calls (here ++ [j]) child p (child_conditional c child) (child_loop l child)
         | None => []
         end
    else [].
Proof.
  induction 1 as [|child rest Hchild _ IH]; intros i; simpl.
  - by case_decide.
  - rewrite filter_app, IH. destruct (decide (i = j)) as [->|Hne].
    + destruct (decide (S j ≤ j)%nat); [lia|]. destruct (decide (j ≤ j)%nat); [|lia].
      rewrite Nat.sub_diag, app_nil_r. simpl. rewrite <-Hchild.
      by rewrite <-(app_assoc here [j]).
    + rewrite filter_none.
      2:{ intros e [q Hq]%collect_path_shape Heq. rewrite Hq, <-!app_assoc in Heq.
          apply app_inv_head in Heq. simpl in Heq. congruence. }
      simpl. destruct (decide (S i ≤ j)%nat).
      * destruct (decide (i ≤ j)%nat); [|lia].
        by replace (j - i) with (S (j - S i)) by lia.
      * by destruct (decide (i ≤ j)%nat); [lia|].
Qed.

(** Among the calls of a pass, those whose callee is the [func] child of
    position [p] are exactly the call [site] gives: one or none. *)
Lemma collect_filter n : ∀ here c l p,
  filter (λ e, ref_path (obj e) = here ++ p ++ [0]) (collect here n c l)
  = site_calls here n p c l.
Proof.
  induction n as [k children IH | func args _ _] using node_forall_ind;
    intros here c l p.
  - rewrite collect_Node. destruct p as [|j p].
    + unfold site_calls. simpl. apply filter_none.
      intros e He Heq. revert He. generalize 0 as i.
      induction children as [|child rest IHrest]; intros i He; simpl in He.
      * by apply elem_of_nil in He.
      * apply Forall_cons in IH as [_ IH].
        apply elem_of_app in He as [He|He]; [|by eapply IHrest].
        apply collect_path_shape in He as [q Hq]. rewrite Hq, <-app_assoc in Heq.
        apply app_inv_head in Heq. destruct q; simpl in Heq; [congruence|].
        destruct q; simpl in Heq; congruence.
    + rewrite (collect_children_filter _ _ _ _ _ _ IH).
      destruct (decide (0 ≤ j)%nat); [|lia]. rewrite Nat.sub_0_r.
      unfold site_calls. simpl. destruct (children !! j) as [child|]; simpl; [|done].
      by rewrite <-(app_assoc here [j]).
  - unfold site_calls. destruct p as [|j p]; simpl.
    + destruct func as [[] ?|]; simpl; try done.
      by rewrite filter_cons_True.
    + destruct func as [[] ?|]; simpl; try done.
      rewrite filter_cons_False; [done|]. simpl. intros Heq.
      apply app_inv_head in Heq. destruct p; simpl in Heq; congruence.
Qed.

Lemma collect_elem here n c l e :
  e ∈ collect here n c l ↔ ∃ p, e ∈ site_calls here n p c l.
Proof.
  split.
  - intros He. destruct (collect_path_shape _ _ _ _ _ He) as [p Hp].
    exists p. rewrite <-collect_filter. by apply list_elem_of_filter.
  - intros [p Hp]. rewrite <-collect_filter in Hp. by apply list_elem_of_filter in Hp as [_ ?].
Qed.

(** ** Facts on insertion-ordered dictionaries *)

Section dict_facts.
Context {K V : Type} `{EqDecision K}.
Implicit Types (d : list (K * V)) (k : K) (v : V).

Lemma dict_get_app k d1 d2 :
  dict_get k (d1 ++ d2)
  = match dict_get k d1 with Some v => Some v | None => dict_get k d2 end.
Proof.
  induction d1 as [|[k' v'] d1 IH]; simpl; [done|]. by case_decide.
Qed.

Lemma dict_get_None k d : dict_get k d = None ↔ k ∉ d.*1.
Proof.
  induction d as [|[k' v'] d IH]; simpl.
  - split; [intros _; apply not_elem_of_nil | done].
  - rewrite not_elem_of_cons, <-IH. case_decide; naive_solver.
Qed.

Lemma dict_get_Some_elem k v d : dict_get k d = Some v → (k, v) ∈ d.
Proof.
  induction d as [|[k' v'] d IH]; simpl; [done|].
  case_decide as Hk; [|right; auto]. intros Hv. injection Hv as ->. rewrite Hk. left.
Qed.

Lemma dict_get_elem k v d : NoDup d.*1 → (k, v) ∈ d → dict_get k d = Some v.
Proof.
  induction d as [|[k' v'] d IH]; simpl; intros Hnd Hin.
  - by apply elem_of_nil in Hin.
  - apply NoDup_cons in Hnd as [Hk' Hnd]. apply elem_of_cons in Hin as [[= -> ->]|Hin].
    + by rewrite decide_True.
    + rewrite decide_False; [by apply IH|]. intros ->. apply Hk'.
      apply list_elem_of_fmap. by exists (k, v).
Qed.

Lemma dict_get_set k k' v d :
  dict_get k' (dict_set k v d) = if decide (k = k') then Some v else dict_get k' d.
Proof.
  induction d as [|[k0 v0] d IH]; simpl.
  - done.
  - destruct (decide (k0 = k)) as [->|Hne]; simpl.
    + by case_decide.
    + rewrite IH. destruct (decide (k0 = k')) as [->|]; [|done].
      by rewrite decide_False.
Qed.

Lemma dict_set_keys k v d :
  (dict_set k v d).*1 = match dict_get k d with Some _ => d.*1 | None => d.*1 ++ [k] end.
Proof.
  induction d as [|[k0 v0] d IH]; [done|]. cbn [dict_set dict_get].
  case_decide; [done|]. rewrite !fmap_cons, IH. by destruct (dict_get k d).
Qed.

Lemma dict_set_keys_app k v d : dict_get k d = None → dict_set k v d = d ++ [(k, v)].
Proof.
  induction d as [|[k0 v0] d IH]; simpl; [done|].
  case_decide; [done|]. intros Hg. by rewrite IH.
Qed.

Lemma dict_set_NoDup k v d : NoDup d.*1 → NoDup (dict_set k v d).*1.
Proof.
  intros Hnd. rewrite dict_set_keys. destruct (dict_get k d) eqn:Hg; [done|].
  apply NoDup_app. split_and!; [done| |apply NoDup_singleton].
  intros x Hx ->%list_elem_of_singleton. by apply dict_get_None in Hg.
Qed.

Lemma dict_set_Forall (P : K * V → Prop) k v d :
  Forall P d → P (k, v) → Forall P (dict_set k v d).
Proof.
  induction 1 as [|[k0 v0] d H0 Hd IH]; intros Hkv; simpl.
  - by constructor.
  - case_decide; subst; constructor; auto.
Qed.

Lemma dict_get_Forall (P : K * V → Prop) k v d :
  Forall P d → dict_get k d = Some v → P (k, v).
Proof.
  intros Hd Hg. apply dict_get_Some_elem in Hg.
  by eapply Forall_forall in Hd.
Qed.

Lemma dict_get_setdefault k k' v d :
  dict_get k' (dict_setdefault k v d)
  = match dict_get k' d with
    | Some x => Some x
    | None => if decide (k = k') then Some v else None
    end.
Proof.
  unfold dict_setdefault. destruct (dict_get k d) eqn:Hg.
  - destruct (dict_get k' d) eqn:Hg'; [done|]. case_decide; [congruence | done].
  - rewrite dict_get_app. simpl. done.
Qed.

Lemma dict_setdefault_keys_elem k k' v d :
  k' ∈ (dict_setdefault k v d).*1 ↔ k' = k ∨ k' ∈ d.*1.
Proof.
  unfold dict_setdefault. destruct (dict_get k d) eqn:Hg.
  - split; [auto|]. intros [->|]; [|done].
    destruct (decide (k ∈ d.*1)) as [|Hn]; [done|].
    apply dict_get_None in Hn. congruence.
  - rewrite fmap_app, elem_of_app. simpl. rewrite list_elem_of_singleton. naive_solver.
Qed.

Lemma dict_set_keys_elem k k' v d :
  k' ∈ (dict_set k v d).*1 ↔ k' = k ∨ k' ∈ d.*1.
Proof.
  rewrite dict_set_keys. destruct (dict_get k d) eqn:Hg.
  - split; [auto|]. intros [->|]; [|done].
    destruct (decide (k ∈ d.*1)) as [|Hn]; [done|].
    apply dict_get_None in Hn. congruence.
  - rewrite elem_of_app, list_elem_of_singleton. naive_solver.
Qed.

Lemma dict_setdefault_NoDup k v d : NoDup d.*1 → NoDup (dict_setdefault k v d).*1.
Proof.
  intros Hnd. unfold dict_setdefault. destruct (dict_get k d) eqn:Hg; [done|].
  rewrite fmap_app. apply NoDup_app. split_and!; [done| |apply NoDup_singleton].
  intros x Hx ->%list_elem_of_singleton. by apply dict_get_None in Hg.
Qed.

Lemma dict_setdefault_Forall (P : K * V → Prop) k v d :
  Forall P d → P (k, v) → Forall P (dict_setdefault k v d).
Proof.
  intros Hd Hkv. unfold dict_setdefault. destruct (dict_get k d); [done|].
  apply Forall_app. split; [done | by constructor].
Qed.

(** Assigning to a key changes what a traversal of the dictionary yields
    only by what the assigned entry yields. *)
Lemma dict_set_bind_perm {B} (f : K * V → list B) k v d extra :
  match dict_get k d with
  | Some v0 => f (k, v) ≡ₚ f (k, v0) ++ extra
  | None => f (k, v) ≡ₚ extra
  end →
  dict_set k v d ≫= f ≡ₚ (d ≫= f) ++ extra.
Proof.
  induction d as [|[k0 v0] d IH]; simpl.
  - intros ->. by rewrite app_nil_r.
  - destruct (decide (k0 = k)) as [->|Hne]; simpl.
    + intros ->. rewrite <-!app_assoc. f_equiv. apply Permutation_app_comm.
    + intros Hd. rewrite (IH Hd). by rewrite app_assoc.
Qed.
End dict_facts.

(** Traversals that nest one dictionary in another: the entries produced
    for a key of the outer dictionary carry that key, read off by [proj]. *)
Section dict_bind.
Context {K1 V1 K2 V2 : Type} `{EqDecision K1, EqDecision K2}.
Variable f : K1 * V1 → list (K2 * V2).
Variable proj : K2 → K1.
Hypothesis f_proj : ∀ k1 v1 x, x ∈ (f (k1, v1)).*1 → proj x = k1.

Lemma dict_get_bind (d : list (K1 * V1)) (k2 : K2) :
  NoDup d.*1 →
  dict_get k2 (d ≫= f)
  = match dict_get (proj k2) d with
    | Some v1 => dict_get k2 (f (proj k2, v1))
    | None => None
    end.
Proof using f_proj.
  induction d as [|[k1 v1] d IH]; [done|]. rewrite fmap_cons, bind_cons, dict_get_app.
  intros [Hk1 Hnd]%NoDup_cons. cbn [dict_get]. rewrite (IH Hnd).
  destruct (decide (k1 = proj k2)) as [->|Hne].
  - simpl in Hk1. apply dict_get_None in Hk1. rewrite Hk1.
    by destruct (dict_get k2 (f (proj k2, v1))).
  - destruct (dict_get k2 (f (k1, v1))) eqn:Hg; [|done].
    exfalso. apply Hne. symmetry. apply (f_proj k1 v1).
    destruct (decide (k2 ∈ (f (k1, v1)).*1)) as [|Hn]; [done|].
    apply dict_get_None in Hn. congruence.
Qed.

Lemma NoDup_bind_keys (d : list (K1 * V1)) :
  NoDup d.*1 → Forall (λ e, NoDup (f e).*1) d → NoDup (d ≫= f).*1.
Proof using f_proj.
  induction d as [|[k1 v1] d IH]; [intros; apply NoDup_nil_2|].
  rewrite fmap_cons, bind_cons, fmap_app.
  intros [Hk1 Hnd]%NoDup_cons [Hf Hd]%Forall_cons. apply NoDup_app. split_and!; [done| |auto].
  intros x Hx Hx'. apply f_proj in Hx.
  apply list_elem_of_fmap in Hx' as ([k2 v2] & -> & Hin).
  apply list_elem_of_bind in Hin as ([k1' v1'] & Hin & Hd').
  apply Hk1. simpl in *. rewrite <-Hx.
  assert (proj k2 = k1') as ->.
  { apply (f_proj k1' v1'). apply list_elem_of_fmap. by exists (k2, v2). }
  apply list_elem_of_fmap. by exists (k1', v1').
Qed.
End dict_bind.

(** ** Facts on the multigraph *)

Lemma wf_empty_graph : wf_graph empty_graph.
Proof. split; [apply NoDup_nil_2 | constructor]. Qed.

Lemma wf_add_node n G : wf_graph G → wf_graph (add_node n G).
Proof.
  intros [Hnd Hall]. split; simpl.
  - by apply dict_setdefault_NoDup.
  - apply dict_setdefault_Forall; [done|]. split; [apply NoDup_nil_2 | constructor].
Qed.

Lemma wf_add_edge u v key d G : wf_graph G → wf_graph (add_edge u v key d G).
Proof.
  intros HG. unfold add_edge.
  generalize (wf_add_node v _ (wf_add_node u _ HG)).
  generalize (add_node v (add_node u G)) as G2. clear G HG. intros G2 [Hnd Hall].
  generalize (match key with Some k => k | None => new_edge_key u v G2 end) as k.
  intros k.
  assert (wf_nbrs (default [] (dict_get u (_adj G2)))) as [Hn1 Hn2].
  { destruct (dict_get u (_adj G2)) as [nbrs|] eqn:Hu; simpl.
    - apply (dict_get_Forall _ _ _ _ Hall Hu).
    - split; [apply NoDup_nil_2 | constructor]. }
  split; simpl.
  - by apply dict_set_NoDup.
  - apply dict_set_Forall; [done|]. split; simpl.
    + by apply dict_set_NoDup.
    + apply dict_set_Forall; [done|]. simpl.
      destruct (dict_get v (default [] (dict_get u (_adj G2)))) as [kd|] eqn:Hv.
      * apply dict_set_NoDup. apply (dict_get_Forall _ _ _ _ Hn2 Hv).
      * apply NoDup_singleton.
Qed.

Lemma edge_get_add_node n G u v k : edge_get (add_node n G) u v k = edge_get G u v k.
Proof.
  unfold edge_get. simpl. rewrite dict_get_setdefault.
  destruct (dict_get u (_adj G)); [done|]. by case_decide.
Qed.

Lemma add_edge_put u v key d G :
  add_edge u v key d G
  = let G2 := add_node v (add_node u G) in
    put_edge u v (match key with Some k => k | None => new_edge_key u v G2 end) d G2.
Proof. reflexivity. Qed.

Lemma edge_get_put_edge u v k d G u' v' k' :
  edge_get (put_edge u v k d G) u' v' k'
  = if decide (u = u' ∧ v = v' ∧ k = k') then Some d else edge_get G u' v' k'.
Proof.
  unfold put_edge, edge_get. simpl. rewrite dict_get_set.
  destruct (decide (u = u')) as [<-|Hu]; simpl.
  - rewrite dict_get_set.
    destruct (decide (v = v')) as [<-|Hv]; simpl.
    + destruct (dict_get u (_adj G)) as [nbrs|]; simpl.
      * destruct (dict_get v nbrs) as [kd|]; simpl.
        -- rewrite dict_get_set. destruct (decide (k = k')).
           ++ by rewrite decide_True.
           ++ rewrite decide_False by naive_solver. done.
        -- destruct (decide (k = k')).
           ++ by rewrite decide_True.
           ++ rewrite decide_False by naive_solver. done.
      * destruct (decide (k = k')).
        -- by rewrite decide_True.
        -- rewrite decide_False by naive_solver. done.
    + rewrite decide_False by naive_solver.
      by destruct (dict_get u (_adj G)).
  - rewrite decide_False by naive_solver. done.
Qed.

Lemma edge_get_add_edge u v k d G u' v' k' :
  edge_get (add_edge u v (Some k) d G) u' v' k'
  = if decide (u = u' ∧ v = v' ∧ k = k') then Some d else edge_get G u' v' k'.
Proof.
  rewrite add_edge_put. cbv zeta. by rewrite edge_get_put_edge, !edge_get_add_node.
Qed.

Lemma elem_of_nodes_add_node n G x : x ∈ nodes (add_node n G) ↔ x = n ∨ x ∈ nodes G.
Proof. apply dict_setdefault_keys_elem. Qed.

Lemma elem_of_nodes_add_edge u v key d G x :
  x ∈ nodes (add_edge u v key d G) ↔ x = u ∨ x = v ∨ x ∈ nodes G.
Proof.
  unfold nodes, add_edge. simpl.
  rewrite dict_set_keys_elem, !dict_setdefault_keys_elem. naive_solver.
Qed.

Lemma edges_add_node n G : edges (add_node n G) = edges G.
Proof.
  unfold edges, add_node, dict_setdefault. simpl.
  destruct (dict_get n (_adj G)); [done|].
  rewrite bind_app. simpl. by rewrite app_nil_r.
Qed.

Lemma edges_put_edge u v k d G :
  is_Some (dict_get u (_adj G)) →
  edge_get G u v k = None →
  edges (put_edge u v k d G) ≡ₚ edges G ++ [(u, v, k, d)].
Proof.
  intros [nbrs Hu] Hfresh. unfold edges, put_edge. simpl.
  apply dict_set_bind_perm. unfold edge_get in Hfresh. rewrite Hu in *. simpl in *.
  unfold nbrs_edges. apply dict_set_bind_perm.
  destruct (dict_get v nbrs) as [kd|]; simpl in *.
  - unfold keydict_edges. rewrite (dict_set_keys_app k d kd Hfresh).
    by rewrite fmap_app.
  - done.
Qed.

(** The key search ends on an unused key: below the fuel there are not
    enough keys to keep it going. *)
Lemma filter_le_lt (key : nat) (l : list nat) :
  key ∈ l →
  length (filter (λ x, S key ≤ x)%nat l) < length (filter (λ x, key ≤ x)%nat l).
Proof.
  induction l as [|x l IH]; intros Hin; [by apply elem_of_nil in Hin|].
  rewrite !filter_cons.
  assert (Hmono : length (filter (λ x, S key ≤ x)%nat l)
                  ≤ length (filter (λ x, key ≤ x)%nat l)).
  { clear. induction l as [|y l IH]; [done|]. rewrite !filter_cons.
    repeat case_decide; simpl; lia. }
  apply elem_of_cons in Hin as [<-|Hin].
  - destruct (decide (S key ≤ key)%nat); [lia|]. destruct (decide (key ≤ key)%nat); [|lia].
    simpl. lia.
  - specialize (IH Hin). repeat case_decide; simpl; lia.
Qed.

Lemma first_free_key_fresh keydict : ∀ fuel key,
  length (filter (λ x, key ≤ x)%nat keydict.*1) < fuel →
  dict_get (first_free_key fuel key keydict) keydict = None.
Proof.
  induction fuel as [|fuel IH]; intros key Hlt; [lia|]. simpl.
  destruct (dict_get key keydict) eqn:Hg; [|done].
  apply IH. assert (key ∈ keydict.*1) as Hin.
  { destruct (decide (key ∈ keydict.*1)) as [|Hn]; [done|].
    apply dict_get_None in Hn. congruence. }
  apply filter_le_lt in Hin. lia.
Qed.

Lemma new_edge_key_fresh u v G : edge_get G u v (new_edge_key u v G) = None.
Proof.
  unfold edge_get, new_edge_key.
  destruct (dict_get u (_adj G)) as [nbrs|]; [|done]. cbn [mbind option_bind].
  destruct (dict_get v nbrs) as [kd|]; [|done]. cbn [mbind option_bind].
  apply first_free_key_fresh.
  pose proof (length_filter (λ x, length kd ≤ x)%nat kd.*1) as Hle.
  rewrite length_fmap in Hle. lia.
Qed.

(** Adding an edge without a key adds one edge and keeps all others. *)
Lemma edges_add_edge_None u v d G :
  ∃ k, edges (add_edge u v None d G) ≡ₚ edges G ++ [(u, v, k, d)].
Proof.
  rewrite add_edge_put. cbv zeta.
  exists (new_edge_key u v (add_node v (add_node u G))).
  rewrite edges_put_edge.
  - by rewrite !edges_add_node.
  - simpl. rewrite !dict_get_setdefault.
    destruct (dict_get u (_adj G)); [by eexists|]. rewrite decide_True by done. by eexists.
  - apply new_edge_key_fresh.
Qed.

Lemma add_edge_None u v d G :
  add_edge u v None d G
  = add_edge u v (Some (new_edge_key u v (add_node v (add_node u G)))) d G.
Proof. reflexivity. Qed.

Lemma good_empty_graph : good_graph empty_graph.
Proof. split; [apply wf_empty_graph|]. intros u v k [d Hd]. discriminate Hd. Qed.

Lemma good_add_node n G : good_graph G → good_graph (add_node n G).
Proof.
  intros [Hwf Hcl]. split; [by apply wf_add_node|].
  intros u v k. rewrite edge_get_add_node, !elem_of_nodes_add_node.
  intros Hs. destruct (Hcl u v k Hs). auto.
Qed.

Lemma good_add_edge u v key d G : good_graph G → good_graph (add_edge u v key d G).
Proof.
  intros [Hwf Hcl]. split; [by apply wf_add_edge|].
  assert (∃ k, add_edge u v key d G = add_edge u v (Some k) d G) as [k ->].
  { destruct key as [k|]; [by exists k|]. eexists. apply add_edge_None. }
  intros u' v' k'. rewrite edge_get_add_edge, !elem_of_nodes_add_edge.
  case_decide as Heq; [naive_solver|].
  intros Hs. destruct (Hcl u' v' k' Hs). auto.
Qed.

Lemma good_add_nodes_from ns : ∀ R, good_graph R → good_graph (add_nodes_from ns R).
Proof.
  induction ns as [|n ns IH]; intros R HR; simpl; [done|]. by apply IH, good_add_node.
Qed.

Lemma good_add_edges_from es : ∀ R, good_graph R → good_graph (add_edges_from es R).
Proof.
  induction es as [|[[[u v] k] d] es IH]; intros R HR; simpl; [done|].
  by apply IH, good_add_edge.
Qed.

Lemma good_compose G H : good_graph (compose G H).
Proof.
  unfold compose. do 2 apply good_add_edges_from. do 2 apply good_add_nodes_from.
  apply good_empty_graph.
Qed.

(** The edge list of a graph, read as a dictionary from (source, target,
    key), agrees with the nested look-up. *)
Lemma dict_get_keydict_edges u v kd u' v' k' :
  dict_get (u', v', k') (keydict_edges u v kd)
  = if decide (u = u' ∧ v = v') then dict_get k' kd else None.
Proof.
  unfold keydict_edges. induction kd as [|[k0 d0] kd IH]; [simpl; by case_decide|].
  rewrite fmap_cons. cbn [dict_get fst snd].
  rewrite IH. destruct (decide (u = u' ∧ v = v')) as [[-> ->]|Hne].
  - destruct (decide (k0 = k')) as [->|Hk]; [by rewrite decide_True|].
    rewrite decide_False by congruence. done.
  - rewrite decide_False by naive_solver. done.
Qed.

Lemma keydict_edges_key u v kd x : x ∈ (keydict_edges u v kd).*1 → x.1 = (u, v).
Proof.
  unfold keydict_edges. rewrite <-list_fmap_compose.
  intros ([k d] & -> & _)%list_elem_of_fmap. done.
Qed.

Lemma keydict_edges_NoDup u v kd : NoDup kd.*1 → NoDup (keydict_edges u v kd).*1.
Proof.
  intros Hnd. unfold keydict_edges. rewrite <-list_fmap_compose.
  change (NoDup ((λ k, (u, v, k)) ∘ fst <$> kd)). rewrite list_fmap_compose.
  apply NoDup_fmap_2; [|done]. by intros k1 k2 [= ->].
Qed.

Lemma nbrs_edges_key u nbrs x : x ∈ (nbrs_edges u nbrs).*1 → x.1.1 = u.
Proof.
  intros ([x' d] & -> & Hin)%list_elem_of_fmap.
  apply list_elem_of_bind in Hin as ([v kd] & Hin & _).
  assert (x' ∈ (keydict_edges u v kd).*1) as Hk.
  { apply list_elem_of_fmap. by exists (x', d). }
  apply keydict_edges_key in Hk. simpl. by rewrite Hk.
Qed.

Lemma dict_get_nbrs_edges u nbrs u' v' k' :
  NoDup nbrs.*1 →
  dict_get (u', v', k') (nbrs_edges u nbrs)
  = if decide (u = u') then kd ← dict_get v' nbrs; dict_get k' kd else None.
Proof.
  intros Hnd. unfold nbrs_edges.
  rewrite (dict_get_bind _ (λ x : string * string * nat, x.1.2)).
  - simpl. destruct (dict_get v' nbrs) as [kd|]; simpl; [|by case_decide].
    rewrite dict_get_keydict_edges.
    destruct (decide (u = u')); [by rewrite decide_True | by rewrite decide_False by tauto].
  - intros v kd x Hx%keydict_edges_key. simpl in *. by rewrite Hx.
  - done.
Qed.

Lemma nbrs_edges_NoDup u nbrs : wf_nbrs nbrs → NoDup (nbrs_edges u nbrs).*1.
Proof.
  intros [Hnd Hall]. unfold nbrs_edges.
  apply (NoDup_bind_keys _ (λ x : string * string * nat, x.1.2)); [|done|].
  - intros v kd x Hx%keydict_edges_key. simpl in *. by rewrite Hx.
  - eapply Forall_impl; [exact Hall|]. intros [v kd] Hkd. by apply keydict_edges_NoDup.
Qed.

Lemma dict_get_edges G u v k :
  wf_graph G → dict_get (u, v, k) (edges G) = edge_get G u v k.
Proof.
  intros [Hnd Hall]. unfold edges, edge_get.
  rewrite (dict_get_bind _ (λ x : string * string * nat, x.1.1)).
  - simpl. destruct (dict_get u (_adj G)) as [nbrs|] eqn:Hu; simpl; [|done].
    rewrite dict_get_nbrs_edges.
    + by rewrite decide_True.
    + apply (dict_get_Forall _ _ _ _ Hall Hu).
  - intros u' nbrs x Hx%nbrs_edges_key. done.
  - done.
Qed.

Lemma edges_NoDup G : wf_graph G → NoDup (edges G).*1.
Proof.
  intros [Hnd Hall]. unfold edges.
  apply (NoDup_bind_keys _ (λ x : string * string * nat, x.1.1)); [|done|].
  - intros u' nbrs x Hx%nbrs_edges_key. done.
  - eapply Forall_impl; [exact Hall|]. intros [u' nbrs] Hn. by apply nbrs_edges_NoDup.
Qed.

Lemma elem_of_edges G u v k d :
  wf_graph G → (u, v, k, d) ∈ edges G ↔ edge_get G u v k = Some d.
Proof.
  intros Hwf. rewrite <-(dict_get_edges G u v k Hwf). split.
  - apply dict_get_elem, edges_NoDup, Hwf.
  - apply dict_get_Some_elem.
Qed.

Lemma edge_get_add_nodes_from ns u v k : ∀ R,
  edge_get (add_nodes_from ns R) u v k = edge_get R u v k.
Proof.
  induction ns as [|n ns IH]; intros R; simpl; [done|].
  by rewrite IH, edge_get_add_node.
Qed.

Lemma edge_get_add_edges_from es u v k : ∀ R,
  NoDup es.*1 →
  edge_get (add_edges_from es R) u v k
  = match dict_get (u, v, k) es with
    | Some d => Some d
    | None => edge_get R u v k
    end.
Proof.
  induction es as [|[[[u0 v0] k0] d0] es IH]; intros R Hnd; [done|].
  rewrite fmap_cons in Hnd. apply NoDup_cons in Hnd as [Hk Hnd].
  change (add_edges_from (((u0, v0, k0), d0) :: es) R)
    with (add_edges_from es (add_edge u0 v0 (Some k0) d0 R)).
  rewrite (IH _ Hnd), edge_get_add_edge. cbn [dict_get].
  destruct (decide ((u0, v0, k0) = (u, v, k))) as [[= -> -> ->]|Hne].
  - rewrite decide_True by done. simpl in Hk. apply dict_get_None in Hk. by rewrite Hk.
  - rewrite decide_False by naive_solver. done.
Qed.

(** [compose]: an edge of [H] wins over the edge of [G] with the same
    source, target and key. *)
Lemma edge_get_compose G H u v k :
  wf_graph G → wf_graph H →
  edge_get (compose G H) u v k
  = match edge_get H u v k with
    | Some d => Some d
    | None => edge_get G u v k
    end.
Proof.
  intros HG HH. unfold compose.
  rewrite !edge_get_add_edges_from by (by apply edges_NoDup).
  rewrite !edge_get_add_nodes_from, !dict_get_edges by done.
  destruct (edge_get H u v k); [done|]. by destruct (edge_get G u v k).
Qed.

Lemma elem_of_nodes_add_nodes_from ns x : ∀ R,
  x ∈ nodes (add_nodes_from ns R) ↔ x ∈ ns ∨ x ∈ nodes R.
Proof.
  induction ns as [|n ns IH]; intros R; simpl.
  - rewrite elem_of_nil. naive_solver.
  - rewrite IH, elem_of_nodes_add_node, elem_of_cons. naive_solver.
Qed.

Lemma elem_of_nodes_add_edges_from es x : ∀ R,
  x ∈ nodes (add_edges_from es R)
  ↔ (∃ u v k d, (u, v, k, d) ∈ es ∧ (x = u ∨ x = v)) ∨ x ∈ nodes R.
Proof.
  induction es as [|[[[u0 v0] k0] d0] es IH]; intros R.
  - simpl. split; [auto|]. intros [(u & v & k & d & Hin & _)|]; [|done].
    by apply elem_of_nil in Hin.
  - change (add_edges_from (((u0, v0, k0), d0) :: es) R)
      with (add_edges_from es (add_edge u0 v0 (Some k0) d0 R)).
    rewrite IH, elem_of_nodes_add_edge. split.
    + intros [(u & v & k & d & Hin & Hx)|[->|[->|Hx]]]; auto.
      * left. exists u, v, k, d. split; [by right | done].
      * left. exists u0, v0, k0, d0. split; [left | auto].
      * left. exists u0, v0, k0, d0. split; [left | auto].
    + intros [(u & v & k & d & Hin & Hx)|Hx]; [|auto].
      apply elem_of_cons in Hin as [[= -> -> -> ->]|Hin]; [naive_solver|].
      left. by exists u, v, k, d.
Qed.

Lemma elem_of_nodes_compose G H x :
  good_graph G → good_graph H →
  x ∈ nodes (compose G H) ↔ x ∈ nodes G ∨ x ∈ nodes H.
Proof.
  intros [HG HGc] [HH HHc]. unfold compose.
  rewrite !elem_of_nodes_add_edges_from, !elem_of_nodes_add_nodes_from.
  assert (∀ G0 u v k d, wf_graph G0 → closed_graph G0 → (u, v, k, d) ∈ edges G0 →
            u ∈ nodes G0 ∧ v ∈ nodes G0) as Hends.
  { intros G0 u v k d Hwf Hcl Hin. apply (Hcl u v k).
    apply elem_of_edges in Hin; [by eexists | done]. }
  split.
  - intros [(u & v & k & d & Hin & Hx)|[(u & v & k & d & Hin & Hx)|[?|[?|Hx]]]]; auto.
    + destruct (Hends _ _ _ _ _ HH HHc Hin). naive_solver.
    + destruct (Hends _ _ _ _ _ HG HGc Hin). naive_solver.
    + by apply elem_of_nil in Hx.
  - naive_solver.
Qed.

(** ** Projection *)

Lemma edges_data_add_edge_None u v d G :
  edges_data (add_edge u v None d G) ≡ₚ edges_data G ++ [(u, v, d)].
Proof.
  unfold edges_data. destruct (edges_add_edge_None u v d G) as [k ->].
  by rewrite fmap_app.
Qed.





(** What [to_networkx] returns, whenever it returns. *)
Lemma to_networkx_edge_sound builtins filter_builtins v1 G e G' :
  to_networkx_edge builtins filter_builtins v1 G e = Ok G' →
  (good_graph G → good_graph G')
  ∧ edges_data G' ≡ₚ edges_data G ++ call_edge builtins filter_builtins v1 e.
Proof.
  unfold to_networkx_edge, call_edge.
  destruct (attr_id (ref_node (obj e))) as [id|] eqn:Hid;
    destruct (attr_name (ref_node v1)) as [u|] eqn:Hu;
    destruct filter_builtins; simpl; try discriminate;
    try (destruct (decide (id ∈ builtins));
         [ rewrite bool_decide_false by tauto; rewrite ?bool_decide_true by done; simpl
         | rewrite bool_decide_true by done; rewrite ?bool_decide_false by done; simpl ]);
    try discriminate; intros [= <-];
    first [ split; [done | by rewrite app_nil_r]
          | split; [apply good_add_edge | apply edges_data_add_edge_None] ].
Qed.

Lemma to_networkx_calls_sound builtins filter_builtins v1 cs : ∀ G G',
  foldM (to_networkx_edge builtins filter_builtins v1) G cs = Ok G' →
  (good_graph G → good_graph G')
  ∧ edges_data G' ≡ₚ edges_data G ++ (cs ≫= call_edge builtins filter_builtins v1).
Proof.
  induction cs as [|e cs IH]; intros G G' Hf; simpl in Hf.
  - injection Hf as <-. split; [done | by rewrite app_nil_r].
  - destruct (to_networkx_edge builtins filter_builtins v1 G e) as [G1|] eqn:He;
      [|discriminate]. simpl in Hf.
    apply to_networkx_edge_sound in He as [Hg1 Hp1]. apply IH in Hf as [Hg Hp].
    split; [auto|]. rewrite Hp, Hp1, <-app_assoc. done.
Qed.

Lemma to_networkx_sound builtins filter_builtins fnc G :
  to_networkx builtins fnc filter_builtins = Ok G →
  good_graph G ∧ edges_data G ≡ₚ call_edges builtins filter_builtins (graph fnc).
Proof.
  unfold to_networkx, call_edges.
  assert (∀ g G0 G', foldM (λ G '(v1, v2),
              foldM (to_networkx_edge builtins filter_builtins v1) G v2) G0 g = Ok G' →
            (good_graph G0 → good_graph G')
            ∧ edges_data G' ≡ₚ edges_data G0
                ++ (g ≫= λ oc, oc.2 ≫= call_edge builtins filter_builtins oc.1)) as Hgen.
  { induction g as [|[v1 v2] g IH]; intros G0 G' Hf; simpl in Hf.
    - injection Hf as <-. split; [done | by rewrite app_nil_r].
    - destruct (foldM (to_networkx_edge builtins filter_builtins v1) G0 v2) as [G1|] eqn:H1;
        [|discriminate]. simpl in Hf.
      apply to_networkx_calls_sound in H1 as [Hg1 Hp1]. apply IH in Hf as [Hg Hp].
      split; [auto|]. rewrite Hp, Hp1, <-app_assoc. done. }
  intros Hf. apply Hgen in Hf as [Hg Hp]. split; [apply Hg, good_empty_graph | done].
Qed.

(** ** Invariants of the extracted index *)












(** ** Roots do not nest *)

Lemma root_at_app r : ∀ n x m l m' l',
  root_at n r = Some (m, l) → root_at n (r ++ x) = Some (m', l') → x = [].
Proof.
  induction r as [|i r IH]; intros n x m l m' l' Hr Hx.
  - destruct n as [k ch|]; [|done]. simpl in Hr.
    destruct (root_loop k) eqn:Hk; [|done].
    destruct x as [|j x]; [done|]. simpl in Hx. by rewrite Hk in Hx.
  - simpl in *. destruct n as [k ch|func args].
    + destruct (root_loop k); [done|].
      destruct (ch !! i) as [c|]; simpl in *; [|done]. by eapply IH.
    + destruct ((func :: args) !! i) as [c|]; simpl in *; [|done]. by eapply IH.
Qed.

Lemma root_at_subtree r : ∀ n m l, root_at n r = Some (m, l) → subtree n r = Some m.
Proof.
  induction r as [|i r IH]; intros n m l Hr.
  - destruct n as [k ch|]; [|done]. simpl in Hr.
    destruct (root_loop k); [|done]. by injection Hr as <- <-.
  - simpl in *. destruct n as [k ch|func args]; simpl.
    + destruct (root_loop k); [done|].
      destruct (ch !! i) as [c|]; simpl in *; [|done]. by eapply IH.
    + destruct ((func :: args) !! i) as [c|]; simpl in *; [|done]. by eapply IH.
Qed.

(** The calls an owner has after extraction. *)
Lemma extract_calls_of_root tree fc r d l :
  extract tree = Ok fc → root_at tree r = Some (d, l) →
  calls_of (graph fc) r = collect r d false l.
Proof.
  intros Hx Hr. rewrite (extract_calls_of _ _ _ Hx). unfold visit_calls. by rewrite Hr.
Qed.


Lemma under_call_app p : ∀ nd func args x,
  subtree nd p = Some (Call func args) → x ≠ [] → under_call nd (p ++ x) = true.
Proof.
  induction p as [|i p IH]; intros nd func args x Hs Hx; simpl in Hs.
  - injection Hs as ->. by destruct x.
  - simpl. destruct (iter_child_nodes nd !! i) as [c|]; [|done].
    rewrite (IH _ _ _ _ Hs Hx). apply orb_true_r.
Qed.




(** * The properties of the specification *)


(** C5.  Within one registration pass the flags are monotonic.  A call
    recorded by the pass started at [nd] with flags [c], [l] sits at some
    position [p] below [nd]; its conditional flag is [c] or-ed with
    "some node below [nd] on the way to [p] is an [If] or [IfExp]", and its
    loop flag is [l] or-ed with "some node on the way is a [For] or [While]".
    So a flag that is true on entry to a subtree is true on every call
    recorded beneath it, a call below both a conditional and a loop (in
    either order) has both flags, and a call below a loop only, in a pass
    started with [c = false], has its conditional flag false. *)
Theorem flags_monotonic nd here owner c l self e :
  e ∈ calls_of (graph (_register_calls here nd owner c l self)) (ref_path owner) →
  e ∈ calls_of (graph self) (ref_path owner)
  ∨ ∃ p args,
      ref_path (obj e) = here ++ p ++ [0]
      ∧ subtree nd p = Some (Call (ref_node (obj e)) args)
      ∧ is_conditional e = c || passes isinstance_conditional nd p
      ∧ is_loop e = l || passes isinstance_loop nd p.
Proof.
  rewrite _register_calls_graph, calls_of_append_all, decide_True by done.
  intros [He|He]%elem_of_app; [by left|]. right.
  apply collect_elem in He as [p Hp]. unfold site_calls in Hp. rewrite site_spec in Hp.
  destruct (subtree nd p) as [[|f args]|] eqn:Hs; try by apply elem_of_nil in Hp.
  destruct (is_name f && negb (under_call nd p)); [|by apply elem_of_nil in Hp].
  apply list_elem_of_singleton in Hp as ->. by exists p, args.
Qed.

Lemma flags_monotonic_witness :
  let e := mkCall (Ref [0; 1; 1; 2; 0; 0] (Node (Name "g") [])) true true in
  let self := __init__ None in
  let owner := Ref [] conditional_loop in
  e ∈ calls_of (graph (_register_calls [] conditional_loop owner false false self)) []
  ∧ (e ∈ calls_of (graph self) []
     ∨ ∃ p args,
         ref_path (obj e) = [] ++ p ++ [0]
         ∧ subtree conditional_loop p = Some (Call (ref_node (obj e)) args)
         ∧ is_conditional e = false || passes isinstance_conditional conditional_loop p
         ∧ is_loop e = false || passes isinstance_loop conditional_loop p).
Proof.
  intros e self owner.
  assert (Hin : e ∈ calls_of (graph (_register_calls [] conditional_loop owner
                                       false false self)) (ref_path owner)).
  { vm_compute. left. }
  split; [exact Hin|]. exact (flags_monotonic _ _ _ _ _ _ _ Hin).
Defined.

(** On [g()(h())] the pass records nothing, so the call [h()] among the
    arguments is not recorded. *)
Lemma call_on_call_not_recursed : ¬ recurses_below_call call_on_call.
Proof.
  intros Hclaim.
  destruct (Hclaim (plain_call "g" []) [plain_call "h" []] 0 "h" [] []
              (Ref [] call_on_call) false false (__init__ None))
    as (e & He & _); try done.
  vm_compute in He. by apply elem_of_nil in He.
Qed.

(** C3, amended.  A call whose callee is not a plain name (an attribute
    access, another call, anything else) emits no edge, and the procedure
    does not recurse into the call's children: the visitor's state is left
    as it was, so calls nested in its callee or arguments are not recorded. *)
Theorem call_without_name_callee_skipped func args here owner c l self :
  is_name func = false →
  _register_calls here (Call func args) owner c l self = self.
Proof. intros Hf. simpl. by destruct func as [[] ?|]. Qed.

Lemma call_without_name_callee_skipped_witness :
  _register_calls [] call_on_call (Ref [] call_on_call) false false (__init__ None)
  = __init__ None.
Proof. apply call_without_name_callee_skipped. reflexivity. Defined.

(** On the nested definitions [outer]/[inner] the index has no entry for
    [inner]. *)
Lemma nested_defs_no_inner_entry : ¬ double_attribution nested_defs.
Proof.
  intros Hclaim.
  destruct (extract_total nested_defs) as [fc Hfc].
  destruct (Hclaim fc [0] [1] [1; 0] "outer"
              [arguments;
               Node (FunctionDef "inner") [arguments; Expr (plain_call "call_a" [])];
               Expr (plain_call "call_b" [])]
              "inner" [arguments; Expr (plain_call "call_a" [])]
              (Node (Name "call_a") []) [])
    as (_ & e & He & _); try done.
  vm_compute in Hfc. injection Hfc as <-.
  vm_compute in He. by apply elem_of_nil in He.
Qed.

(** C1, amended.  Let [outer] be a definition the visitor reaches as a
    traversal root (it is not below another definition, loop or
    comprehension), and [inner] a function definition inside it.  A
    plain-name call in [inner] that is not inside another call expression is
    recorded exactly once for [outer], with the flags of the way from
    [outer] to it.  No entry is produced for [inner]: the visitor does not
    descend below a definition, so [inner] is never a traversal root. *)
Theorem nested_call_owned_by_root tree fc outer od inner iname ich p f args :
  extract tree = Ok fc →
  root_at tree outer = Some (od, false) →
  inner ≠ [] →
  subtree od inner = Some (Node (FunctionDef iname) ich) →
  subtree od (inner ++ p) = Some (Call f args) →
  is_name f = true →
  under_call od (inner ++ p) = false →
  filter (λ e, ref_path (obj e) = outer ++ (inner ++ p) ++ [0]) (calls_of (graph fc) outer)
  = [mkCall (Ref (outer ++ (inner ++ p) ++ [0]) f)
       (passes isinstance_conditional od (inner ++ p))
       (passes isinstance_loop od (inner ++ p))]
  ∧ calls_of (graph fc) (outer ++ inner) = [].
Proof.
  intros Hx Hr Hinner _ Hcall Hname Hunder. split.
  - rewrite (extract_calls_of_root _ _ _ _ _ Hx Hr), collect_filter.
    unfold site_calls. by rewrite site_spec, Hcall, Hname, Hunder.
  - rewrite (extract_calls_of _ _ _ Hx). unfold visit_calls.
    destruct (root_at tree (outer ++ inner)) as [[m l]|] eqn:Hi; [|done].
    by rewrite (root_at_app _ _ _ _ _ _ _ Hr Hi) in Hinner.
Qed.

Lemma nested_call_owned_by_root_witness :
  ∃ fc, extract nested_defs = Ok fc
        ∧ filter (λ e, ref_path (obj e) = [0] ++ ([1] ++ [1; 0]) ++ [0])
            (calls_of (graph fc) [0])
          = [mkCall (Ref [0; 1; 1; 0; 0] (Node (Name "call_a") [])) false false]
        ∧ calls_of (graph fc) ([0] ++ [1]) = [].
Proof.
  destruct (extract_total nested_defs) as [fc Hfc].
  exists fc. split; [exact Hfc|].
  refine (nested_call_owned_by_root nested_defs fc [0] outer_def [1] "inner" _ [1; 0] _ []
            Hfc _ _ _ _ _ _); reflexivity || done.
Defined.




(** C8.  On a function that contains a class definition the index ends up
    without an entry for the class: [visit_ClassDef] records a class that
    the visitor reaches, but inside a registration pass only [FunctionDef]
    children are recorded.  A function nested the same way is recorded. *)
Theorem nested_class_not_indexed :
  (∃ fc, extract nested_class = Ok fc
         ∧ is_Some (index fc !! "f") ∧ index fc !! "C" = None)
  ∧ (∃ fc, extract nested_defs = Ok fc
           ∧ is_Some (index fc !! "outer") ∧ is_Some (index fc !! "inner")).
Proof.
  split; eexists; (split; [vm_compute; reflexivity|]); split; vm_compute; eauto.
Qed.

(** C10.  For a [for] or [while] loop at module level whose body calls a
    plain name, extraction records the loop node itself as the owner of the
    call; the loop node has no [name], so [pretty_calls] raises an attribute
    error, and so does [to_networkx] without builtin filtering, and with it
    unless the callee is a builtin name. *)
Theorem toplevel_loop_breaks_projection (builtins : gset string) (while : bool)
    (callee : string) :
  ∃ fc loop_node e,
    extract (toplevel_loop while callee) = Ok fc
    ∧ graph fc = [(Ref [0] loop_node, [e])]
    ∧ isinstance_loop loop_node = true
    ∧ attr_id (ref_node (obj e)) = Ok callee
    ∧ pretty_calls fc = Raise (AttributeError "name")
    ∧ to_networkx builtins fc false = Raise (AttributeError "name")
    ∧ to_networkx builtins fc true
      = if bool_decide (callee ∈ builtins) then Ok empty_graph
        else Raise (AttributeError "name").
Proof.
  destruct while; do 3 eexists; (split; [reflexivity|]);
    (split_and!; [reflexivity..|]);
    unfold to_networkx, to_networkx_edge; simpl;
    (destruct (decide (callee ∈ builtins));
     [ rewrite bool_decide_false by tauto; rewrite bool_decide_true by done
     | rewrite bool_decide_true by done; rewrite bool_decide_false by done ]);
    reflexivity.
Qed.



(** ** Colours *)

Lemma color_vector_fold G colormap :
  color_vector G colormap = foldM (color_step colormap) [] (edges_data G).
Proof. reflexivity. Qed.

Lemma color_fold colormap es : ∀ acc,
  match foldM (color_step colormap) acc es with
  | Ok cl => ∃ cs, cl = acc ++ cs
                   ∧ Forall2 (λ e c, colormap !! color_key e = Some c) es cs
  | Raise x => ∃ e, e ∈ es ∧ colormap !! color_key e = None ∧ x = KeyError (color_key e)
  end.
Proof.
  induction es as [|[[u v] data] es IH]; intros acc; simpl.
  - exists []. by rewrite app_nil_r.
  - destruct (colormap !! (in_conditional data, in_loop data)) as [c|] eqn:Hc; simpl.
    + specialize (IH (acc ++ [c])).
      destruct (foldM (color_step colormap) (acc ++ [c]) es) as [cl|x].
      * destruct IH as (cs & -> & Hcs). exists (c :: cs).
        split; [by rewrite <-app_assoc | by constructor].
      * destruct IH as (e & He & Hnone & ->). exists e. split_and!; [by right | done..].
    + exists (u, v, data). split_and!; [left | done..].
Qed.

(** C7.  [color_vector] returns the colour list [cl] exactly when [cl] has
    one colour for each edge, in the order of [G.edges], each the entry of
    the colormap under the edge's (in_conditional, in_loop) pair; it raises
    exactly when the colormap lacks the pair of some edge, and what it
    raises is the [KeyError] of such a pair.  The function only reads the
    graph: it returns colours or an error and no graph, so a failure leaves
    every graph as it was. *)
Theorem color_vector_spec (G : MultiDiGraph) (colormap : gmap (bool * bool) string) :
  (∀ cl, color_vector G colormap = Ok cl
         ↔ Forall2 (λ e c, colormap !! color_key e = Some c) (edges_data G) cl)
  ∧ (raises (color_vector G colormap)
     ↔ ∃ e, e ∈ edges_data G ∧ colormap !! color_key e = None)
  ∧ (∀ x, color_vector G colormap = Raise x →
          ∃ e, e ∈ edges_data G ∧ colormap !! color_key e = None
               ∧ x = KeyError (color_key e)).
Proof.
  rewrite color_vector_fold.
  pose proof (color_fold colormap (edges_data G) []) as Hfold.
  assert (Hfun : ∀ es cl1 cl2,
            Forall2 (λ e c, colormap !! color_key e = Some c) es cl1 →
            Forall2 (λ e c, colormap !! color_key e = Some c) es cl2 → cl1 = cl2).
  { intros es cl1 cl2 H1. revert cl2.
    induction H1 as [|e c es cl1 Hc _ IH]; intros cl2 H2.
    - by apply Forall2_nil_inv_l in H2.
    - apply Forall2_cons_inv_l in H2 as (c' & cl2' & Hc' & H2 & ->).
      f_equal; [congruence | by apply IH]. }
  assert (Hmiss : ∀ es cl e,
            Forall2 (λ e c, colormap !! color_key e = Some c) es cl →
            e ∈ es → colormap !! color_key e = None → False).
  { intros es cl e H2 Hin Hnone.
    apply list_elem_of_lookup in Hin as [i Hi].
    destruct (Forall2_lookup_l _ _ _ _ _ H2 Hi) as (c & _ & Hc). congruence. }
  destruct (foldM (color_step colormap) [] (edges_data G)) as [cl0|x0].
  - destruct Hfold as (cs & -> & Hcs). simpl. split_and!.
    + intros cl. split; [by intros [= <-] | intros Hcl; f_equal; by eapply Hfun].
    + split; [by intros [x Hx] | intros (e & Hin & Hnone)]. exfalso. by eapply Hmiss.
    + done.
  - destruct Hfold as (e & Hin & Hnone & ->). split_and!.
    + intros cl. split; [done | intros Hcl]. exfalso. by eapply Hmiss.
    + split; [by exists e | by eexists].
    + intros x [= <-]. by exists e.
Qed.

(** ** Merging *)

Lemma merge_fold builtins filter_builtins fncs Gs :
  projections builtins filter_builtins fncs Gs →
  ∀ G, foldM (λ G f', H ← to_networkx builtins f' filter_builtins; mret (compose G H))
         G fncs
       = Ok (foldl compose G Gs).
Proof.
  induction 1 as [|fnc H fncs Gs Hp _ IH]; intros G; simpl; [done|].
  rewrite Hp. simpl. apply IH.
Qed.

Lemma foldl_compose_good Gs : ∀ G, good_graph G → good_graph (foldl compose G Gs).
Proof.
  induction Gs as [|H Gs IH]; intros G HG; simpl; [done|]. apply IH, good_compose.
Qed.

Lemma foldl_compose_nodes Gs x : ∀ G,
  good_graph G → Forall good_graph Gs →
  x ∈ nodes (foldl compose G Gs) ↔ x ∈ nodes G ∨ ∃ H, H ∈ Gs ∧ x ∈ nodes H.
Proof.
  induction Gs as [|H Gs IH]; intros G HG HGs; simpl.
  - split; [auto|]. intros [?|(H & Hin & _)]; [done|]. by apply elem_of_nil in Hin.
  - apply Forall_cons in HGs as [HH HGs].
    rewrite (IH _ (good_compose G H) HGs), (elem_of_nodes_compose G H x HG HH). split.
    + intros [[?|?]|(H' & Hin & Hx)]; auto.
      * right. exists H. split; [left | done].
      * right. exists H'. split; [by right | done].
    + intros [?|(H' & Hin & Hx)]; [auto|].
      apply elem_of_cons in Hin as [->|Hin]; [auto|]. right. by exists H'.
Qed.

Lemma foldl_compose_edge_get Gs u v k : ∀ G,
  good_graph G → Forall good_graph Gs →
  edge_get (foldl compose G Gs) u v k
  = foldl (λ acc G, later_wins acc (edge_get G u v k)) (edge_get G u v k) Gs.
Proof.
  induction Gs as [|H Gs IH]; intros G HG HGs; simpl; [done|].
  apply Forall_cons in HGs as [HH HGs].
  rewrite (IH _ (good_compose G H) HGs). f_equal.
  rewrite edge_get_compose by (apply HG || apply HH).
  unfold later_wins. by destruct (edge_get H u v k).
Qed.

(** Merging the projection of [def f(): g()] with itself gives one edge
    from [f] to [g], not two. *)
Lemma merge_same_edge_collapses :
  ¬ merge_concatenates ∅ true [one_call_index; one_call_index].
Proof.
  intros Hclaim.
  assert (∃ G R, to_networkx ∅ one_call_index true = Ok G
                 ∧ merge_networkx ∅ [one_call_index; one_call_index] true = Ok R
                 ∧ length (edges_data G) = 1 ∧ length (edges_data R) = 1)
    as (G & R & HG & HR & HlG & HlR).
  { do 2 eexists. split_and!; vm_compute; reflexivity. }
  assert (Hp := Hclaim [G; G] R).
  apply Permutation_length in Hp.
  - simpl in Hp. rewrite app_nil_r, length_app in Hp. lia.
  - by repeat constructor.
  - done.
Qed.

(** C4, amended.  When every input projects, merging returns a graph whose
    node set is the union of the input node sets, and whose edges are
    identified by source, target and key: it has an edge under such a
    triple exactly when some input has, and the edge carries the flags of
    the last input that has one.  An edge of a later input therefore
    replaces the edge of an earlier input with the same source, target and
    key instead of being added next to it. *)
Theorem merge_networkx_spec (builtins : gset string) (filter_builtins : bool)
    (f : FunctionCounter) (fncs : list FunctionCounter) (Gs : list MultiDiGraph) :
  projections builtins filter_builtins (f :: fncs) Gs →
  ∃ R, merge_networkx builtins (f :: fncs) filter_builtins = Ok R
       ∧ (∀ x, x ∈ nodes R ↔ ∃ G, G ∈ Gs ∧ x ∈ nodes G)
       ∧ (∀ u v k d, (u, v, k, d) ∈ edges R ↔ last_edge Gs u v k = Some d)
       ∧ NoDup (edges R).*1.
Proof.
  intros Hp. inversion Hp as [|f' G0 fncs' Gs' HG0 Hrest]; subst.
  assert (good_graph G0) as Hgood0 by (by eapply to_networkx_sound).
  assert (Forall good_graph Gs') as Hgood.
  { clear -Hrest. induction Hrest as [|fnc H ? ? HH _ IH]; constructor; [|done].
    by eapply to_networkx_sound. }
  exists (foldl compose G0 Gs'). split_and!.
  - simpl. rewrite HG0. simpl. by apply merge_fold.
  - intros x. rewrite (foldl_compose_nodes _ _ _ Hgood0 Hgood). split.
    + intros [?|(H & Hin & Hx)]; [exists G0; split; [left | done]|].
      exists H. split; [by right | done].
    + intros (H & Hin & Hx). apply elem_of_cons in Hin as [->|Hin]; [auto|].
      right. by exists H.
  - intros u v k d.
    rewrite elem_of_edges by (apply foldl_compose_good; done).
    rewrite (foldl_compose_edge_get _ _ _ _ _ Hgood0 Hgood). unfold last_edge. simpl.
    unfold later_wins at 3. by destruct (edge_get G0 u v k).
  - apply edges_NoDup, foldl_compose_good. done.
Qed.

Lemma merge_networkx_spec_witness :
  ∃ R, merge_networkx ∅ [one_call_index; one_call_index] true = Ok R
       ∧ (∀ x, x ∈ nodes R ↔ ∃ G, G ∈ [one_call_graph; one_call_graph] ∧ x ∈ nodes G)
       ∧ (∀ u v k d, (u, v, k, d) ∈ edges R
                     ↔ last_edge [one_call_graph; one_call_graph] u v k = Some d)
       ∧ NoDup (edges R).*1.
Proof.
  apply (merge_networkx_spec ∅ true one_call_index [one_call_index]
           [one_call_graph; one_call_graph]).
  repeat constructor; vm_compute; reflexivity.
Defined.
